(* ===== verification/_CoqProject ===== *)
-Q . S2P
Prelude.v
Canvas.v
ScoreSpec.v
TwoPlayer.v
OnePlayer.v
Loop.v
Script.v
