(* ===== verification/Prelude.v ===== *)
(** * A verification development of the Pong game (bezii135/Game)

    The repository holds two browser Pong games written in JavaScript:
    - [src/game.js], two human players: the left paddle is moved with the
      arrow keys, the right one with the keys [w] and [s];
    - [src/oneplayer.js], one human player against a computer that moves
      the right paddle towards the ball every frame.
    Both files keep their whole state in module-level [let] variables
    (paddle positions, ball position and velocity, two scores and the
    [gameOver] latch), and have the same four parts:
    - [update]: one frame of simulation (move the ball, bounce it on the
      top and bottom walls and on the paddles, count a point and call
      [resetGame] when the ball leaves the field, latch [gameOver] at five
      points); [oneplayer.js] also moves the computer paddle and, on the
      game-over frame, draws the final screen from inside [update];
    - [draw] and its helpers [clearCanvas], [drawRect], [drawBall],
      [drawScores], [drawGameOver]: a pure read of the state that issues
      canvas-2D calls;
    - the [keydown] listener: moves a paddle by [paddleSpeed], guarded by
      a bound check made before the move;
    - [gameLoop]: [update] then [draw], rescheduled on every display
      refresh by [requestAnimationFrame].
    The listener and the loop run on one JavaScript event queue, so the
    program is a sequential interleaving of frames and key events.

    ** Files of the development
    - [Prelude] (this file): the scope [pong_scope], the reflexive
      transitive closure [star] of a step relation and its induction
      lemmas, the tactics [zlia] (lia with [/] and [mod] by constants)
      and [zcase] (case analysis on the boolean comparisons the code
      makes), and the hint database [pong].
    - [Canvas]: the host: the canvas element [HTMLCanvas] (its width and
      height, read once at load time), the canvas-2D calls as the
      inductive [cmd] the renderers emit, and JavaScript's conversion of
      a number to a string ([numberToString], used by the score labels),
      with its inverse [parseNumber], the reader [readLabel] of a label on
      the canvas, and the round trip [parseNumber_numberToString].
    - [ScoreSpec]: the abstract contract of a Pong game: an abstract
      score machine (two counters and the latch) as a step relation with
      its invariants (scores stay in [0..5], the latch holds exactly when
      one side has five points, never both), and the typeclass
      [PongGame] with its laws [PongLaws], which each variant instantiates;
      the event semantics [run] and [reachable] and the generic theorems
      (a latched game stays frozen under any events; the scores of every
      reachable state satisfy the abstract invariant) are proved once,
      from the laws as section hypotheses, and each variant applies them
      to its own lemmas.
    - [TwoPlayer]: [src/game.js]. Module [TwoPlayer]: the record [state]
      of the module-level variables, [init], each block of [update] as a
      definition ([moveBall], [wallBounce], [paddleBounce], [checkScoring],
      [checkGameOver]) composed into [update], [resetGame], the listener
      [onKeyDown] (its four guarded moves in sequence), the renderer
      [draw], [gameLoop]. Theorems C1-C16, C28 and C29: the latch; the
      invariant and per-frame refinement of [ScoreSpec]; the frame
      semantics on every branch; the velocity-magnitude invariant; the
      ball stays inside the field; the paddle bounds, with the exact
      clamp when [centerPaddleY] is a multiple of [paddleSpeed] and,
      on every other canvas, a reachable paddle above the top edge
      (C10, C11); the bound of every number by 2^53; every canvas call
      [draw] makes meets the 2D context's argument contract
      ([Canvas.cmdWellTyped], C13); the listener's behaviour per key; the
      serve towards the scorer; the game-over message; the idle game on
      the spec's canvas that never ends; the score labels read back as
      the scores.
    - [OnePlayer]: [src/oneplayer.js]: the same state with [computerScore],
      the computer-paddle policy [computerMove], the in-update drawing and
      the background-colour timer of [resetGame] as effects on the page,
      the page [world] with its pending timers and its step relation.
      The two source files duplicate the ball physics: the theorem that a
      one-player frame is the two-player frame on the same state except
      for the right paddle (C17) gives the one-player game its score
      refinement and transfers the ball and paddle invariants of
      [TwoPlayer]. Theorems C17-C27, C30 and C34: the score invariant and
      refinement, the listener (left paddle only), the final message,
      the ball and paddle bounds, the computer's policy, the dead timer,
      the visible frame and the triple paint of the game-over frame, the
      labels on screen, the exact clamp of both paddles when
      [centerPaddleY] is a multiple of [paddleSpeed].
    - [Loop]: the last lines of both files, [gameLoop] with its
      [requestAnimationFrame] call and the call at load, over the
      browser's animation-frame callback list and event queue; the class
      [GameLoop] is what the driver needs of a game, with an instance per
      file. Theorems C31-C33: exactly one callback is pending on every
      reachable page (the loop neither stops nor doubles); the page's
      state is [run] of the translated events, so every [reachable]
      invariant holds of the page; after game over each refresh redraws
      the frozen frame.
    - [Script]: the scripts' top level as the page runs it, in a
      state-and-exception monad [js] of its own: the lookup of the
      [pongCanvas] element and of its 2D context (lines 2-3) with their
      [null] results, the listener registered before the first
      [gameLoop()], and the [TypeError]s the script raises, which end a
      handler but keep its writes. Theorem C35: without the element the
      script stops at line 3; with a null context the loop dies in the
      first [draw] after one [update], and only keys still change the
      state.

    ** Numbers
    JavaScript numbers are doubles. Every value the program computes is an
    integer or, when a canvas dimension is odd, a half-integer. The model
    uses [Z] and restricts [HTMLCanvas] to even dimensions (fields
    [width_even], [height_even]), so that [canvas.width / 2] is the exact
    integer [width / 2]. All reachable values stay below 2^53 in absolute
    value ([TwoPlayer.reachable_safe_integers]), where doubles are exact:
    on reachable states the [Z] model is the double semantics.

    ** Bounds and fuel
    [decimal] prints with [log2 n + 1] digits of fuel, enough for every
    [n >= 0] since [n < 2 ^ (log2 n + 1) <= 10 ^ (log2 n + 1)]
    ([Canvas.decimal_fuel]); the round trip is proved for every integer.
    The idle two-player game on the spec's 800 by 400 canvas is periodic
    with period 960 frames ([TwoPlayer.orbitOk] checks the orbit once by
    computation, [TwoPlayer.run_frames_periodic] extends it to every
    length). The witnesses use the 800 by 400 canvas and the 300 by 150
    default canvas.

    ** Not modelled
    The DOM itself (the model takes the outcome of the lookup of the
    canvas and its context as given), the pixels produced by the canvas calls
    (the model stops at the sequence of calls), the rate of
    [requestAnimationFrame] and the 100 ms delay of [setTimeout] (the
    page lets refreshes, key events and a pending timer come in any
    order, which covers every timing) and the page reload that restarts
    the game: only the order of refreshes, key events and timers matters
    to the program's state. [Canvas.numberToString] writes integers only, which
    are the only numbers the score labels show. *)

From Stdlib Require Import ZArith Lia String List.
From stdpp Require Import base decidable numbers strings.

Declare Scope pong_scope.
Delimit Scope pong_scope with pong.
Open Scope Z_scope.

Create HintDb pong discriminated.
Create Rewrite HintDb pong_rw.

(** ** Finite sequences of steps *)

Section Star.
Context {A : Type} (R : A -> A -> Prop).

Inductive star : A -> A -> Prop :=
| star_refl a : star a a
| star_step a b c : R a b -> star b c -> star a c.

Lemma star_one a b : R a b -> star a b.
Proof. eauto using star. Qed.

Lemma star_trans a b c : star a b -> star b c -> star a c.
Proof. induction 1; eauto using star. Qed.

Lemma star_right a b c : star a b -> R b c -> star a c.
Proof. eauto using star_trans, star_one. Qed.

(** An invariant preserved by every step is preserved by every
    sequence of steps. *)
Lemma star_invariant (P : A -> Prop) :
  (forall a b, P a -> R a b -> P b) ->
  forall a b, star a b -> P a -> P b.
Proof. intros HP a b Hs. induction Hs; eauto. Qed.
End Star.

Arguments star_refl {A R} a.
#[export] Hint Resolve star_refl star_one : pong.

Notation "a '-[' R ']->*' b" := (star R a b)
  (at level 70, format "a  -[ R ]->*  b") : pong_scope.

(** ** Arithmetic on the comparisons the code makes *)

(** [lia] over [Z] with the divisions and remainders by constants that
    the code writes ([canvas.width / 2], [paddleHeight / 2]). *)
Ltac zlia := Z.div_mod_to_equations; lia.

(** Case analysis on every boolean comparison of [Z] (and every string
    test) in the goal, each branch getting the proposition it decides. *)
Ltac zcase :=
  repeat match goal with
  | |- context [Z.ltb ?a ?b] => destruct (Z.ltb_spec a b)
  | |- context [Z.gtb ?a ?b] => rewrite (Z.gtb_ltb a b)
  | |- context [Z.eqb ?a ?b] => destruct (Z.eqb_spec a b)
  | |- context [String.eqb ?a ?b] => destruct (String.eqb_spec a b)
  end.

(** The [gtb] form the JavaScript [>] is translated with. *)
Lemma Z_gtb_lt a b : (a >? b) = true <-> b < a.
Proof. rewrite Z.gtb_ltb. apply Z.ltb_lt. Qed.

Lemma Z_gtb_ge a b : (a >? b) = false <-> a <= b.
Proof. rewrite Z.gtb_ltb. apply Z.ltb_ge. Qed.

#[export] Hint Rewrite Z.ltb_lt Z.ltb_ge Z.eqb_eq Z.eqb_neq Z_gtb_lt Z_gtb_ge
  Bool.orb_true_iff Bool.andb_true_iff Bool.orb_false_iff Bool.andb_false_iff
  String.eqb_eq String.eqb_neq : pong_rw.

(** Case on the condition of the first [if] of the goal, the branch
    getting the condition as propositions. *)
Ltac case_if :=
  match goal with
  | |- context [if ?b then _ else _] =>
      let E := fresh "Hif" in destruct b eqn:E; autorewrite with pong_rw in E
  end.
