(* ===== verification/Canvas.v ===== *)
(** * The host of the game: the canvas element and its 2D context

    The canvas element [HTMLCanvas] is read once at load time for its
    dimensions; the renderers of both games issue canvas-2D calls, which
    the model records as the inductive [cmd]; JavaScript's conversion of a
    number to a string ([numberToString], used by ['Player 1: ' + score])
    is written out as decimal digits, with its inverse [parseDecimal] and
    the round trip between them. *)

From Stdlib Require Import ZArith Lia String Ascii List.
From stdpp Require Import base decidable numbers strings.
From S2P Require Import Prelude.
Import ListNotations.
Open Scope Z_scope.

(** ** The canvas element *)

(** [canvas.width] and [canvas.height] are unsigned integers of the DOM.
    The model keeps the even ones, for which [canvas.width / 2] is an
    integer (see the header of [Prelude]). *)
Record HTMLCanvas := {
  width : Z;
  height : Z;
  width_nonneg : 0 <= width;
  height_nonneg : 0 <= height;
  width_even : Z.even width = true;
  height_even : Z.even height = true
}.

Lemma width_half (c : HTMLCanvas) : width c = 2 * (width c / 2).
Proof.
  pose proof (width_even c) as He. rewrite Zeven_mod, Z.eqb_eq in He. zlia.
Qed.

Lemma height_half (c : HTMLCanvas) : height c = 2 * (height c / 2).
Proof.
  pose proof (height_even c) as He. rewrite Zeven_mod, Z.eqb_eq in He. zlia.
Qed.

(** The canvas of the spec's scenarios (800 by 400) and the HTML default
    canvas (300 by 150), used by the concrete runs. *)
Definition canvas800x400 : HTMLCanvas :=
  {| width := 800; height := 400;
     width_nonneg := ltac:(lia); height_nonneg := ltac:(lia);
     width_even := eq_refl; height_even := eq_refl |}.

Definition canvas300x150 : HTMLCanvas :=
  {| width := 300; height := 150;
     width_nonneg := ltac:(lia); height_nonneg := ltac:(lia);
     width_even := eq_refl; height_even := eq_refl |}.

(** ** Numbers

    [Number.MAX_SAFE_INTEGER]: every integer of absolute value at most
    this bound is a double, and sums of two of them that stay within it
    are computed exactly. *)
Definition maxSafeInteger : Z := 2 ^ 53 - 1.

Definition safeInteger (z : Z) : Prop := - maxSafeInteger <= z <= maxSafeInteger.

(** ** Calls on the 2D context *)

(** The two angles the code passes to [ctx.arc]: [0] and [Math.PI * 2]. *)
Inductive angle := Angle0 | Angle2PI.

Inductive cmd :=
| ClearRect (x y w h : Z)
| SetFillStyle (color : string)
| FillRect (x y w h : Z)
| BeginPath
| Arc (x y radius : Z) (startAngle endAngle : angle)
| Fill
| SetFont (font : string)
| FillText (text : string) (x y : Z).

#[export] Instance angle_eq_dec : EqDecision angle.
Proof. solve_decision. Defined.
#[export] Instance cmd_eq_dec : EqDecision cmd.
Proof. solve_decision. Defined.

(** ** Numbers printed in decimal *)

Definition digitChar (d : Z) : ascii := ascii_of_nat (48 + Z.to_nat d).

(** The digits of [n], most significant first, in front of [acc]; [fuel]
    bounds the number of digits. *)
Fixpoint digitsAux (fuel : nat) (n : Z) (acc : string) : string :=
  match fuel with
  | O => acc
  | S f =>
      let acc' := String (digitChar (n mod 10)) acc in
      if n <? 10 then acc' else digitsAux f (n / 10) acc'
  end.

(** A number has at most [log2 n + 1] decimal digits. *)
Definition decimal (n : Z) : string := digitsAux (S (Z.to_nat (Z.log2 n))) n "".

(** [String(n)] for an integer [n]. *)
Definition numberToString (n : Z) : string :=
  if n <? 0 then "-" ++ decimal (- n) else decimal n.

(** Reading the digits back. *)
Fixpoint parseDigits (s : string) (acc : Z) : option Z :=
  match s with
  | EmptyString => Some acc
  | String ch rest =>
      let d := Z.of_nat (nat_of_ascii ch) - 48 in
      if (0 <=? d) && (d <? 10) then parseDigits rest (10 * acc + d) else None
  end.

Definition parseDecimal (s : string) : option Z :=
  match s with
  | EmptyString => None
  | _ => parseDigits s 0
  end.

(** [Number(s)] on the strings [numberToString] writes: an optional
    minus sign, then decimal digits. *)
Definition parseNumber (s : string) : option Z :=
  match s with
  | String ch rest => if Ascii.eqb ch "-" then option_map Z.opp (parseDecimal rest)
                      else parseDecimal s
  | EmptyString => None
  end.

(** The text after [prefix], when the text starts with it. *)
Fixpoint stripPrefix (prefix text : string) : option string :=
  match prefix, text with
  | EmptyString, _ => Some text
  | String c p, String c' t => if Ascii.eqb c c' then stripPrefix p t else None
  | String _ _, EmptyString => None
  end.

(** The number a viewer reads on the canvas after a label: the first
    [fillText] whose text starts with [prefix], read as a number. *)
Fixpoint readLabel (prefix : string) (cmds : list cmd) : option Z :=
  match cmds with
  | [] => None
  | FillText t _ _ :: rest =>
      match stripPrefix prefix t with
      | Some r => parseNumber r
      | None => readLabel prefix rest
      end
  | _ :: rest => readLabel prefix rest
  end.

(** ** The contract of the 2D context's methods

    A number is passed exactly as a finite double when it is a safe
    integer; [arc] throws an [IndexSizeError] on a negative radius. A
    call that meets this contract draws and does not throw. *)
Definition safeIntb (z : Z) : bool := (- maxSafeInteger <=? z) && (z <=? maxSafeInteger).

Definition cmdWellTyped (k : cmd) : bool :=
  match k with
  | ClearRect x y w h | FillRect x y w h => forallb safeIntb [x; y; w; h]
  | Arc x y r _ _ => forallb safeIntb [x; y; r] && (0 <=? r)
  | FillText _ x y => safeIntb x && safeIntb y
  | SetFillStyle _ | BeginPath | Fill | SetFont _ => true
  end.

(** ** Round trip of the decimal printer *)

Lemma digitChar_value d :
  0 <= d < 10 -> Z.of_nat (nat_of_ascii (digitChar d)) - 48 = d.
Proof.
  intros Hd. unfold digitChar. rewrite nat_ascii_embedding by lia. lia.
Qed.

Lemma parseDigits_digit d acc a :
  0 <= d < 10 -> parseDigits (String (digitChar d) acc) a = parseDigits acc (10 * a + d).
Proof.
  intros Hd. cbn [parseDigits]. rewrite digitChar_value by exact Hd.
  replace ((0 <=? d) && (d <? 10)) with true by (symmetry; apply andb_true_iff; lia).
  reflexivity.
Qed.

(** With [S fuel] digits of room, [digitsAux] writes all the digits of
    [n]: reading them back in front of [acc] shifts the value read so far
    by [S k] digits and adds [n]. *)
Lemma digitsAux_parse fuel n acc :
  0 <= n < 10 ^ Z.of_nat (S fuel) ->
  exists k : nat, forall a,
    parseDigits (digitsAux (S fuel) n acc) a = parseDigits acc (a * 10 ^ Z.of_nat (S k) + n).
Proof.
  revert n acc. induction fuel as [|f IH]; intros n acc Hn; cbn [digitsAux].
  - assert (n < 10) by (rewrite Z.pow_1_r in Hn; lia).
    replace (n <? 10) with true by (symmetry; apply Z.ltb_lt; lia).
    exists O. intros a. rewrite Z.mod_small by lia.
    rewrite parseDigits_digit by lia. f_equal. rewrite Z.pow_1_r. lia.
  - destruct (Z.ltb_spec n 10) as [Hlt|Hge].
    + exists O. intros a. rewrite Z.mod_small by lia.
      rewrite parseDigits_digit by lia. f_equal. rewrite Z.pow_1_r. lia.
    + destruct (IH (n / 10) (String (digitChar (n mod 10)) acc)) as [k Hk].
      { rewrite Nat2Z.inj_succ, Z.pow_succ_r in Hn by lia.
        split; [apply Z.div_pos; lia|]. apply Z.div_lt_upper_bound; lia. }
      exists (S k). intros a. rewrite Hk, parseDigits_digit by (apply Z.mod_pos_bound; lia).
      f_equal. rewrite (Nat2Z.inj_succ (S k)), Z.pow_succ_r by lia.
      pose proof (Z.div_mod n 10). lia.
Qed.

(** [log2 n + 1] digits are enough for [n]: [n < 2 ^ (log2 n + 1)]. *)
Lemma decimal_fuel n : 0 <= n -> n < 10 ^ Z.of_nat (S (Z.to_nat (Z.log2 n))).
Proof.
  intros Hn. rewrite Nat2Z.inj_succ, Z2Nat.id by apply Z.log2_nonneg.
  destruct (Z.eq_dec n 0) as [->|Hn0]; [reflexivity|].
  apply Z.lt_le_trans with (2 ^ Z.succ (Z.log2 n)); [apply Z.log2_spec; lia|].
  apply Z.pow_le_mono_l. lia.
Qed.

Lemma digitsAux_nonempty fuel n c r : exists c' r', digitsAux fuel n (String c r) = String c' r'.
Proof.
  revert n c r; induction fuel as [|f IH]; intros n c r; cbn [digitsAux]; [eauto|].
  destruct (n <? 10); eauto.
Qed.

Lemma parseDigits_decimal n : 0 <= n -> parseDigits (decimal n) 0 = Some n.
Proof.
  intros Hn. unfold decimal.
  destruct (digitsAux_parse (Z.to_nat (Z.log2 n)) n "") as [k Hk];
    [split; [exact Hn | apply decimal_fuel, Hn]|].
  rewrite Hk. cbn [parseDigits]. now rewrite Z.mul_0_l.
Qed.

(** The printed form of a non-negative number starts with a digit. *)
Lemma decimal_shape n : 0 <= n ->
  exists c r, decimal n = String c r /\ Ascii.eqb c "-" = false /\ parseDecimal (decimal n) = Some n.
Proof.
  intros Hn. pose proof (parseDigits_decimal n Hn) as Hp. unfold decimal in *.
  destruct (digitsAux (S (Z.to_nat (Z.log2 n))) n "") as [|c r] eqn:E.
  - cbn [digitsAux] in E. destruct (n <? 10); [discriminate|].
    destruct (digitsAux_nonempty (Z.to_nat (Z.log2 n)) (n / 10) (digitChar (n mod 10)) "")
      as (? & ? & E'); congruence.
  - exists c, r. split; [reflexivity|]. split; [|exact Hp].
    destruct (Ascii.eqb_spec c "-") as [->|]; [discriminate Hp|reflexivity].
Qed.

(** [parseNumber] inverts [numberToString] on every integer. *)
Lemma parseNumber_numberToString n : parseNumber (numberToString n) = Some n.
Proof.
  unfold numberToString. destruct (Z.ltb_spec n 0) as [Hn|Hn].
  - destruct (decimal_shape (- n)) as (c & r & E & _ & Hp); [lia|].
    change ("-" ++ decimal (- n))%string with (String "-" (decimal (- n))).
    unfold parseNumber. rewrite Ascii.eqb_refl, Hp. cbn [option_map]. f_equal. lia.
  - destruct (decimal_shape n) as (c & r & E & Hc & Hp); [lia|].
    rewrite E in *. cbn [parseNumber]. rewrite Hc. exact Hp.
Qed.

Lemma safeIntb_spec z : safeIntb z = true <-> safeInteger z.
Proof. unfold safeIntb, safeInteger. rewrite andb_true_iff, !Z.leb_le. reflexivity. Qed.

Lemma stripPrefix_app p t : stripPrefix p (p ++ t) = Some t.
Proof. induction p as [|c p IH]; [reflexivity|]. simpl. now rewrite Ascii.eqb_refl. Qed.

#[export] Hint Rewrite parseNumber_numberToString stripPrefix_app : pong_rw.

(** ** Properties of the number printer *)
