(* ===== verification/ScoreSpec.v ===== *)
(** * The contract of a Pong game, and the interface both games implement

    [ScoreSpec] is the abstract specification of what the scoring part of
    a game promises (spec sections 3 and 4.1): two counters and the
    [gameOver] latch. A frame either leaves the counters alone or adds one
    point to one side, then latches the game when a side has [maxScore]
    points; once latched, nothing changes. Its invariant says the counters
    stay in [0 .. maxScore], the latch is set exactly when a side has
    [maxScore] points, and never both sides have them.

    [PongGame] is the interface a game variant offers to the page (its
    initial state, a frame of [gameLoop], the [keydown] listener) together
    with the abstraction [pg_abs] to the score machine; [PongLaws] are the
    laws a variant proves: frames refine [frame_step], keys do not touch
    the scores, a latched game ignores frames and keys. The event
    semantics [run], the step relation [gstep] and [reachable] are defined
    once here, over [PongGame] alone. The two generic theorems (a latched
    game stays frozen under any events, [run_frozen_of]; every reachable
    state satisfies the invariant, [reachable_abs_inv_of]) take each law
    they use as a section hypothesis, so a variant applies them to its own
    lemmas; with the laws bundled they give [run_frozen_gen] and
    [reachable_abs_inv_gen] for any instance of [PongLaws]. *)

From Stdlib Require Import ZArith Lia String List.
From stdpp Require Import base decidable numbers strings.
From S2P Require Import Prelude Canvas.
Import ListNotations.
Open Scope Z_scope.

Module ScoreSpec.

(** [const maxScore = 5] in both files. *)
Definition maxScore : Z := 5.

Record abs := mkAbs { score1 : Z; score2 : Z; over : bool }.

#[export] Instance abs_eq_dec : EqDecision abs.
Proof. solve_decision. Defined.

Definition abs_init : abs := mkAbs 0 0 false.

(** The end of [update]: [if (score1 === maxScore || score2 === maxScore)
    gameOver = true]. *)
Definition latch (a : abs) : abs :=
  if (score1 a =? maxScore) || (score2 a =? maxScore)
  then mkAbs (score1 a) (score2 a) true else a.

Definition point1 (a : abs) : abs := mkAbs (score1 a + 1) (score2 a) (over a).
Definition point2 (a : abs) : abs := mkAbs (score1 a) (score2 a + 1) (over a).

Inductive frame_step : abs -> abs -> Prop :=
| fs_frozen a : over a = true -> frame_step a a
| fs_rally a : over a = false -> frame_step a (latch a)
| fs_point1 a : over a = false -> frame_step a (latch (point1 a))
| fs_point2 a : over a = false -> frame_step a (latch (point2 a)).

Definition abs_inv (a : abs) : Prop :=
  0 <= score1 a <= maxScore /\ 0 <= score2 a <= maxScore /\
  (over a = true <-> score1 a = maxScore \/ score2 a = maxScore) /\
  ~ (score1 a = maxScore /\ score2 a = maxScore).

Lemma abs_inv_init : abs_inv abs_init.
Proof. unfold abs_inv, maxScore; simpl. intuition (discriminate || lia). Qed.

Lemma latch_inv a :
  over a = false -> 0 <= score1 a <= maxScore -> 0 <= score2 a <= maxScore ->
  ~ (score1 a = maxScore /\ score2 a = maxScore) -> abs_inv (latch a).
Proof.
  destruct a as [s1 s2 o]; unfold latch, abs_inv, maxScore; simpl.
  intros -> ? ? ?. zcase; simpl; intuition (discriminate || lia).
Qed.

Lemma frame_step_inv a b : abs_inv a -> frame_step a b -> abs_inv b.
Proof.
  unfold abs_inv; intros (H1 & H2 & H3 & H4) Hs.
  destruct Hs as [a Ho|a Ho|a Ho|a Ho]; [unfold abs_inv; tauto| ..];
    apply latch_inv; simpl; try assumption;
    rewrite Ho in H3; unfold maxScore in *; intuition (discriminate || lia).
Qed.

(** Scores never decrease and grow by at most one point per frame. *)
Lemma frame_step_scores a b :
  frame_step a b ->
  score1 a <= score1 b /\ score2 a <= score2 b /\
  score1 b + score2 b <= score1 a + score2 a + 1.
Proof.
  destruct 1; unfold latch, point1, point2; simpl; zcase; simpl; lia.
Qed.

(** A latched game stays latched. *)
Lemma frame_step_over a b : frame_step a b -> over a = true -> over b = true.
Proof. destruct 1; congruence. Qed.

End ScoreSpec.

Import ScoreSpec.

(** ** The interface of a game variant *)

(** The events the page delivers: a display refresh running [gameLoop],
    and a [keydown] event with its [e.key]. *)
Inductive event := Frame | KeyDown (key : string).

Class PongGame (S : Type) := {
  pg_init : HTMLCanvas -> S;
  pg_frame : HTMLCanvas -> S -> S;
  pg_key : HTMLCanvas -> string -> S -> S;
  pg_abs : S -> abs
}.

Class PongLaws (S : Type) `{PongGame S} := {
  law_init c : pg_abs (pg_init c) = abs_init;
  law_frame c s : frame_step (pg_abs s) (pg_abs (pg_frame c s));
  law_key c k s : pg_abs (pg_key c k s) = pg_abs s;
  law_frozen_frame c s : over (pg_abs s) = true -> pg_frame c s = s;
  law_frozen_key c k s : over (pg_abs s) = true -> pg_key c k s = s
}.

Section Events.
Context {S : Type} `{PongGame S}.
Variable c : HTMLCanvas.

Definition handle (ev : event) (s : S) : S :=
  match ev with
  | Frame => pg_frame c s
  | KeyDown k => pg_key c k s
  end.

(** The events, in the order the event queue dispatches them. *)
Fixpoint run (evs : list event) (s : S) : S :=
  match evs with
  | [] => s
  | ev :: rest => run rest (handle ev s)
  end.

Inductive gstep : S -> S -> Prop :=
| gstep_event ev s : gstep s (handle ev s).

Definition reachable (s : S) : Prop := star gstep (pg_init c) s.

Lemma run_app evs1 evs2 s : run (evs1 ++ evs2) s = run evs2 (run evs1 s).
Proof. revert s; induction evs1; simpl; auto. Qed.

Lemma run_star evs s : star gstep s (run evs s).
Proof.
  revert s; induction evs as [|ev evs IH]; intros s; simpl;
    [constructor | econstructor; [constructor | apply IH]].
Qed.

Lemma star_run s t : star gstep s t -> exists evs, t = run evs s.
Proof.
  induction 1 as [s|s s' t Hst _ [evs ->]]; [now exists [] |].
  destruct Hst as [ev s]. now exists (ev :: evs).
Qed.

Lemma reachable_run evs : reachable (run evs (pg_init c)).
Proof. apply run_star. Qed.

(** Rule induction on reachable states: an invariant of the initial
    state, of frames and of key events holds of every reachable state. *)
Lemma reachable_ind (P : S -> Prop) :
  P (pg_init c) ->
  (forall s, P s -> P (pg_frame c s)) ->
  (forall k s, P s -> P (pg_key c k s)) ->
  forall s, reachable s -> P s.
Proof.
  intros Hi Hf Hk s Hr. eapply star_invariant; [| exact Hr | exact Hi].
  intros a b Ha Hs. inversion Hs as [[|k] a0]; subst; simpl; auto.
Qed.

(** A game whose frames and key events leave a latched state alone is
    frozen under every sequence of events. *)
Section Frozen.
Hypothesis frame_frozen : forall s, over (pg_abs s) = true -> pg_frame c s = s.
Hypothesis key_frozen : forall k s, over (pg_abs s) = true -> pg_key c k s = s.

Lemma run_frozen_of evs s : over (pg_abs s) = true -> run evs s = s.
Proof.
  revert s; induction evs as [|[|k] evs IH]; intros s Ho; simpl; [done| |];
    [rewrite frame_frozen by done | rewrite key_frozen by done]; now apply IH.
Qed.
End Frozen.

(** A game that starts at [abs_init], whose frames are steps of the score
    machine and whose key events keep the scores, keeps [abs_inv] in every
    reachable state. *)
Section AbsInv.
Hypothesis init_abs : pg_abs (pg_init c) = abs_init.
Hypothesis frame_abs : forall s, frame_step (pg_abs s) (pg_abs (pg_frame c s)).
Hypothesis key_abs : forall k s, pg_abs (pg_key c k s) = pg_abs s.

Lemma reachable_abs_inv_of s : reachable s -> abs_inv (pg_abs s).
Proof.
  revert s. apply (reachable_ind (fun s => abs_inv (pg_abs s)));
    [rewrite init_abs; apply abs_inv_init | |].
  - intros s' Hs. exact (frame_step_inv _ _ Hs (frame_abs s')).
  - intros k s' Hs. now rewrite key_abs.
Qed.
End AbsInv.
End Events.

Arguments run {S _} c evs s.
Arguments reachable {S _} c s.
Arguments gstep {S _} c _ _.

(** The generic theorems, against the laws. *)
Section Generic.
Context {S : Type} `{PongLaws S}.
Variable c : HTMLCanvas.

Lemma gstep_abs s t : gstep c s t -> star frame_step (pg_abs s) (pg_abs t).
Proof.
  destruct 1 as [[|k] s]; simpl;
    [apply star_one, law_frame | rewrite law_key; constructor].
Qed.

Lemma star_abs s t : star (gstep c) s t -> star frame_step (pg_abs s) (pg_abs t).
Proof. induction 1; eauto using star_trans, gstep_abs with pong. Qed.

Lemma run_frozen_gen evs s : over (pg_abs s) = true -> run c evs s = s.
Proof. apply run_frozen_of; [apply law_frozen_frame | apply law_frozen_key]. Qed.

Lemma reachable_abs_inv_gen s : reachable c s -> abs_inv (pg_abs s).
Proof. apply reachable_abs_inv_of; [apply law_init | apply law_frame | apply law_key]. Qed.

Lemma run_scores_mono_gen evs s :
  score1 (pg_abs s) <= score1 (pg_abs (run c evs s)) /\
  score2 (pg_abs s) <= score2 (pg_abs (run c evs s)).
Proof.
  pose proof (star_abs _ _ (run_star c evs s)) as Hs.
  induction Hs as [|a b d Hab _ IH]; [lia|].
  apply frame_step_scores in Hab. lia.
Qed.
End Generic.
