(* ===== verification/TwoPlayer.v ===== *)
(** * The two-player game, [src/game.js]

    Module [TwoPlayer]: the module-level variables of [game.js] as the
    record [state]; the blocks of [update] (lines 66-101) as [moveBall],
    [wallBounce], [paddleBounce], [checkScoring] and [checkGameOver],
    composed in the order of the code; [resetGame]; the [keydown]
    listener as [onKeyDown]; the renderer [draw] with its helpers; and
    [gameLoop]. The canvas is a section variable: the code reads
    [canvas.width] and [canvas.height], which never change.

    The theorems: the frame semantics on each branch; the latch; the
    refinement of [ScoreSpec]; the invariants of reachable states (ball
    speed, ball inside the field, paddle bounds, integer bounds) and the
    concrete runs that witness the findings. *)

From Stdlib Require Import ZArith Lia String List.
From stdpp Require Import base decidable numbers strings.
From S2P Require Import Prelude Canvas ScoreSpec.
Import ListNotations ScoreSpec.
Open Scope Z_scope.

Module TwoPlayer.

(** ** Constants (lines 6-26) *)
Definition paddleWidth : Z := 10.
Definition paddleHeight : Z := 60.
Definition paddleSpeed : Z := 10.
Definition ballSize : Z := 10.

(** ** State (lines 8-27) *)
Record state := mkState {
  leftPaddleY : Z;
  rightPaddleY : Z;
  ballX : Z;
  ballY : Z;
  ballSpeedX : Z;
  ballSpeedY : Z;
  player1Score : Z;
  player2Score : Z;
  gameOver : bool
}.

#[global] Instance state_eq_dec : EqDecision state.
Proof. solve_decision. Defined.

(** Assignments to one variable. *)
Definition setLeftPaddleY v s := mkState v (rightPaddleY s) (ballX s) (ballY s)
  (ballSpeedX s) (ballSpeedY s) (player1Score s) (player2Score s) (gameOver s).
Definition setRightPaddleY v s := mkState (leftPaddleY s) v (ballX s) (ballY s)
  (ballSpeedX s) (ballSpeedY s) (player1Score s) (player2Score s) (gameOver s).
Definition setBallSpeedX v s := mkState (leftPaddleY s) (rightPaddleY s) (ballX s)
  (ballY s) v (ballSpeedY s) (player1Score s) (player2Score s) (gameOver s).
Definition setBallSpeedY v s := mkState (leftPaddleY s) (rightPaddleY s) (ballX s)
  (ballY s) (ballSpeedX s) v (player1Score s) (player2Score s) (gameOver s).
Definition setPlayer1Score v s := mkState (leftPaddleY s) (rightPaddleY s) (ballX s)
  (ballY s) (ballSpeedX s) (ballSpeedY s) v (player2Score s) (gameOver s).
Definition setPlayer2Score v s := mkState (leftPaddleY s) (rightPaddleY s) (ballX s)
  (ballY s) (ballSpeedX s) (ballSpeedY s) (player1Score s) v (gameOver s).
Definition setGameOver v s := mkState (leftPaddleY s) (rightPaddleY s) (ballX s)
  (ballY s) (ballSpeedX s) (ballSpeedY s) (player1Score s) (player2Score s) v.

Section Game.
Variable canvas : HTMLCanvas.

(** The paddle position of lines 8-9 and 108-109. *)
Definition centerPaddleY : Z := height canvas / 2 - paddleHeight / 2.

Definition init : state :=
  mkState centerPaddleY centerPaddleY (width canvas / 2) (height canvas / 2)
    5 5 0 0 false.

(** ** One frame: [update], lines 66-101 *)

(** Lines 70-71. *)
Definition moveBall (s : state) : state :=
  mkState (leftPaddleY s) (rightPaddleY s) (ballX s + ballSpeedX s)
    (ballY s + ballSpeedY s) (ballSpeedX s) (ballSpeedY s)
    (player1Score s) (player2Score s) (gameOver s).

(** Lines 74-76. *)
Definition hitsWall (s : state) : bool :=
  (ballY s - ballSize / 2 <? 0) || (ballY s + ballSize / 2 >? height canvas).

Definition wallBounce (s : state) : state :=
  if hitsWall s then setBallSpeedY (- ballSpeedY s) s else s.

(** Lines 79-84. *)
Definition hitsLeftPaddle (s : state) : bool :=
  (ballX s - ballSize / 2 <? paddleWidth) && (ballY s >? leftPaddleY s)
  && (ballY s <? leftPaddleY s + paddleHeight).

Definition hitsRightPaddle (s : state) : bool :=
  (ballX s + ballSize / 2 >? width canvas - paddleWidth)
  && (ballY s >? rightPaddleY s) && (ballY s <? rightPaddleY s + paddleHeight).

Definition paddleBounce (s : state) : state :=
  if hitsLeftPaddle s || hitsRightPaddle s then setBallSpeedX (- ballSpeedX s) s
  else s.

(** [resetGame], lines 104-110. *)
Definition resetGame (s : state) : state :=
  mkState centerPaddleY centerPaddleY (width canvas / 2) (height canvas / 2)
    (- ballSpeedX s) (ballSpeedY s) (player1Score s) (player2Score s) (gameOver s).

(** Lines 87-95. *)
Definition exitsLeft (s : state) : bool := ballX s - ballSize / 2 <? 0.
Definition exitsRight (s : state) : bool := ballX s + ballSize / 2 >? width canvas.

Definition checkScoring (s : state) : state :=
  if exitsLeft s then resetGame (setPlayer2Score (player2Score s + 1) s)
  else if exitsRight s then resetGame (setPlayer1Score (player1Score s + 1) s)
  else s.

(** Lines 98-100. *)
Definition checkGameOver (s : state) : state :=
  if (player1Score s =? maxScore) || (player2Score s =? maxScore)
  then setGameOver true s else s.

Definition update (s : state) : state :=
  if gameOver s then s
  else checkGameOver (checkScoring (paddleBounce (wallBounce (moveBall s)))).

(** ** The [keydown] listener, lines 133-151 *)

(** Its four [if] statements, run one after the other on the state the
    previous one left. Lines 137-142, player 1. *)
Definition player1Up (key : string) (s : state) : state :=
  if (key =? "ArrowUp")%string && (leftPaddleY s >? 0)
  then setLeftPaddleY (leftPaddleY s - paddleSpeed) s else s.

Definition player1Down (key : string) (s : state) : state :=
  if (key =? "ArrowDown")%string && (leftPaddleY s <? height canvas - paddleHeight)
  then setLeftPaddleY (leftPaddleY s + paddleSpeed) s else s.

(** Lines 145-150, player 2. *)
Definition player2Up (key : string) (s : state) : state :=
  if (key =? "w")%string && (rightPaddleY s >? 0)
  then setRightPaddleY (rightPaddleY s - paddleSpeed) s else s.

Definition player2Down (key : string) (s : state) : state :=
  if (key =? "s")%string && (rightPaddleY s <? height canvas - paddleHeight)
  then setRightPaddleY (rightPaddleY s + paddleSpeed) s else s.

Definition onKeyDown (key : string) (s : state) : state :=
  if gameOver s then s
  else player2Down key (player2Up key (player1Down key (player1Up key s))).

(** ** The renderer, lines 30-63 and 113-130 *)
Definition drawRect (x y w h : Z) (color : string) : list cmd :=
  [SetFillStyle color; FillRect x y w h].

Definition drawBall (x y size : Z) (color : string) : list cmd :=
  [SetFillStyle color; BeginPath; Arc x y size Angle0 Angle2PI; Fill].

Definition drawScores (s : state) : list cmd :=
  [SetFillStyle "white"; SetFont "20px Arial";
   FillText ("Player 1: " ++ numberToString (player1Score s)) 20 30;
   FillText ("Player 2: " ++ numberToString (player2Score s)) (width canvas - 140) 30].

Definition drawGameOver : list cmd :=
  [SetFillStyle "white"; SetFont "40px Arial";
   FillText "Game Over You Won" (width canvas / 2 - 120) (height canvas / 2);
   SetFont "20px Arial";
   FillText "Press F5 to restart" (width canvas / 2 - 100) (height canvas / 2 + 30)].

Definition clearCanvas : list cmd := [ClearRect 0 0 (width canvas) (height canvas)].

Definition draw (s : state) : list cmd :=
  clearCanvas
  ++ drawRect 0 (leftPaddleY s) paddleWidth paddleHeight "blue"
  ++ drawRect (width canvas - paddleWidth) (rightPaddleY s) paddleWidth paddleHeight "red"
  ++ drawBall (ballX s) (ballY s) ballSize "white"
  ++ drawScores s
  ++ (if gameOver s then drawGameOver else []).

(** [gameLoop], lines 154-158: the next state and the calls drawn. *)
Definition gameLoop (s : state) : state * list cmd :=
  let s := update s in (s, draw s).

(** ** Invariants of reachable states *)

(** The canvas holds a paddle and a ball. *)
Definition fits : Prop :=
  paddleHeight <= height canvas /\ ballSize <= width canvas.

(** Both components of the velocity keep the magnitude 5 of lines 18-19. *)
Definition speedInv (s : state) : Prop :=
  Z.abs (ballSpeedX s) = 5 /\ Z.abs (ballSpeedY s) = 5.

(** The ball centre is inside the field vertically, and a ball that
    overlaps a wall is moving away from it. *)
Definition ballYInv (s : state) : Prop :=
  0 <= ballY s <= height canvas /\
  (ballY s < ballSize / 2 -> ballSpeedY s = 5) /\
  (height canvas - ballSize / 2 < ballY s -> ballSpeedY s = -5).

Definition ballXInv (s : state) : Prop :=
  ballSize / 2 <= ballX s <= width canvas - ballSize / 2.

(** A paddle may overshoot a wall by less than one [paddleSpeed] step. *)
Definition paddleInv (y : Z) : Prop :=
  - paddleSpeed < y < height canvas - paddleHeight + paddleSpeed.

(** The invariant of the frame loop without the horizontal bound, which
    holds in the middle of [update], before [checkScoring]. *)
Definition physicsInv (s : state) : Prop :=
  speedInv s /\ ballYInv s /\ paddleInv (leftPaddleY s) /\ paddleInv (rightPaddleY s).

Definition frameInv (s : state) : Prop := physicsInv s /\ ballXInv s.

(** A paddle on the grid of [paddleSpeed] steps inside the field. *)
Definition alignedInv (y : Z) : Prop :=
  0 <= y <= height canvas - paddleHeight /\ y mod paddleSpeed = 0.

End Game.

(** The part of a frame before the scoring test: the ball moved, its
    velocity flipped by the walls and the paddles. *)
Definition bounced c s : state := paddleBounce c (wallBounce c (moveBall s)).

Definition paddlesP (P : Z -> Prop) (s : state) : Prop :=
  P (leftPaddleY s) /\ P (rightPaddleY s).

(** A state with no point scored and no latch. *)
Definition quiet (s : state) : bool :=
  negb (gameOver s) && (player1Score s =? 0) && (player2Score s =? 0).

(** Checks [n] frames from [s]: every state on the way is quiet, and the
    [n]-th one is [init c] again. *)
Fixpoint orbitOk (c : HTMLCanvas) (n : nat) (s : state) : bool :=
  quiet s && match n with
             | O => bool_decide (s = init c)
             | S k => orbitOk c k (update c s)
             end.

Definition absOf (s : state) : abs := mkAbs (player1Score s) (player2Score s) (gameOver s).

#[global] Instance twoPlayerGame : PongGame state := {|
  pg_init := init;
  pg_frame c s := fst (gameLoop c s);
  pg_key := onKeyDown;
  pg_abs := absOf
|}.

Ltac consts :=
  unfold centerPaddleY, paddleWidth, paddleHeight, paddleSpeed, ballSize, maxScore in *.

Section Proofs.
Variable canvas : HTMLCanvas.

(** *** Scores: the refinement of [ScoreSpec] *)

Lemma absOf_physics s :
  absOf (paddleBounce canvas (wallBounce canvas (moveBall s))) = absOf s.
Proof. unfold paddleBounce, wallBounce; repeat case_if; reflexivity. Qed.

Lemma absOf_checkGameOver s : absOf (checkGameOver s) = latch (absOf s).
Proof. unfold checkGameOver, latch; simpl; case_if; reflexivity. Qed.

Lemma absOf_checkScoring s :
  absOf (checkScoring canvas s) =
  if exitsLeft s then point2 (absOf s)
  else if exitsRight canvas s then point1 (absOf s) else absOf s.
Proof. unfold checkScoring; repeat case_if; reflexivity. Qed.

Lemma update_refines s : frame_step (absOf s) (absOf (update canvas s)).
Proof.
  unfold update. destruct (gameOver s) eqn:Ho; [now constructor|].
  rewrite absOf_checkGameOver, absOf_checkScoring.
  repeat case_if; rewrite absOf_physics; constructor; assumption.
Qed.

Lemma onKeyDown_absOf k s : absOf (onKeyDown canvas k s) = absOf s.
Proof.
  unfold onKeyDown, player2Down, player2Up, player1Down, player1Up.
  repeat case_if; reflexivity.
Qed.

Lemma update_frozen s : gameOver s = true -> update canvas s = s.
Proof. unfold update; now intros ->. Qed.

Lemma onKeyDown_frozen k s : gameOver s = true -> onKeyDown canvas k s = s.
Proof. unfold onKeyDown; now intros ->. Qed.

(** *** The frame invariant *)

Hypothesis Hfits : fits canvas.

Lemma centerPaddleY_inv : paddleInv canvas (centerPaddleY canvas).
Proof. destruct Hfits. unfold paddleInv; consts; zlia. Qed.

Lemma wallBounce_moveBall_inv s :
  physicsInv canvas s -> physicsInv canvas (wallBounce canvas (moveBall s)).
Proof.
  destruct Hfits. unfold physicsInv, speedInv, ballYInv, paddleInv, wallBounce, hitsWall.
  intros ([Hx Hy] & (Hy1 & Hy2 & Hy3) & Hp). case_if; simpl in *; consts; zlia.
Qed.

Lemma paddleBounce_inv s : physicsInv canvas s -> physicsInv canvas (paddleBounce canvas s).
Proof.
  unfold physicsInv, speedInv, paddleBounce. case_if; [|tauto].
  simpl. rewrite Z.abs_opp. tauto.
Qed.

Lemma resetGame_inv s : speedInv s -> frameInv canvas (resetGame canvas s).
Proof.
  destruct Hfits. pose proof centerPaddleY_inv.
  unfold frameInv, physicsInv, speedInv, ballYInv, ballXInv; simpl.
  rewrite Z.abs_opp. consts; intuition zlia.
Qed.

Lemma checkScoring_inv s : physicsInv canvas s -> frameInv canvas (checkScoring canvas s).
Proof.
  intros Hp. unfold checkScoring, exitsLeft, exitsRight.
  repeat case_if; try (apply resetGame_inv, Hp).
  split; [exact Hp|]. unfold ballXInv. lia.
Qed.

Lemma checkGameOver_inv s : frameInv canvas s -> frameInv canvas (checkGameOver s).
Proof. unfold checkGameOver; case_if; auto. Qed.

Lemma update_inv s : frameInv canvas s -> frameInv canvas (update canvas s).
Proof.
  intros Hi. unfold update. destruct (gameOver s); [exact Hi|].
  apply checkGameOver_inv, checkScoring_inv, paddleBounce_inv,
    wallBounce_moveBall_inv, Hi.
Qed.

Lemma paddleInv_up y : paddleInv canvas y -> 0 < y -> paddleInv canvas (y - paddleSpeed).
Proof. unfold paddleInv; consts; lia. Qed.

Lemma paddleInv_down y :
  paddleInv canvas y -> y < height canvas - paddleHeight ->
  paddleInv canvas (y + paddleSpeed).
Proof. unfold paddleInv; consts; lia. Qed.

Lemma onKeyDown_inv k s : frameInv canvas s -> frameInv canvas (onKeyDown canvas k s).
Proof.
  unfold onKeyDown. destruct (gameOver s); [done|].
  unfold player2Down, player2Up, player1Down, player1Up, frameInv, physicsInv.
  repeat case_if; simpl in *;
    intuition auto using paddleInv_up, paddleInv_down with lia.
Qed.

Lemma init_inv : frameInv canvas (init canvas).
Proof.
  destruct Hfits. pose proof centerPaddleY_inv.
  unfold frameInv, physicsInv, speedInv, ballYInv, ballXInv; simpl.
  consts; intuition zlia.
Qed.

Lemma reachable_inv s : reachable canvas s -> frameInv canvas s.
Proof.
  revert s. apply reachable_ind; [apply init_inv | apply update_inv | apply onKeyDown_inv].
Qed.

End Proofs.

(** *** Each stage of [update] in normal form *)

Lemma set_ballSpeedY_id s : setBallSpeedY (ballSpeedY s) s = s.
Proof. now destruct s. Qed.

Lemma set_ballSpeedX_id s : setBallSpeedX (ballSpeedX s) s = s.
Proof. now destruct s. Qed.

Lemma wallBounce_nf c s :
  wallBounce c s = setBallSpeedY (if hitsWall c s then - ballSpeedY s else ballSpeedY s) s.
Proof. unfold wallBounce; destruct (hitsWall c s); auto using set_ballSpeedY_id. Qed.

Lemma paddleBounce_nf c s :
  paddleBounce c s =
  setBallSpeedX (if hitsLeftPaddle s || hitsRightPaddle c s
                 then - ballSpeedX s else ballSpeedX s) s.
Proof.
  unfold paddleBounce; destruct (_ || _); auto using set_ballSpeedX_id.
Qed.

Lemma bounced_fields c s :
  let m := moveBall s in
  bounced c s =
  mkState (leftPaddleY s) (rightPaddleY s) (ballX s + ballSpeedX s) (ballY s + ballSpeedY s)
    (if hitsLeftPaddle m || hitsRightPaddle c m then - ballSpeedX s else ballSpeedX s)
    (if hitsWall c m then - ballSpeedY s else ballSpeedY s)
    (player1Score s) (player2Score s) (gameOver s).
Proof.
  unfold bounced. rewrite paddleBounce_nf, wallBounce_nf. reflexivity.
Qed.

Lemma checkScoring_stay c s :
  exitsLeft s = false -> exitsRight c s = false -> checkScoring c s = s.
Proof. unfold checkScoring; now intros -> ->. Qed.

Lemma checkScoring_left c s :
  exitsLeft s = true -> checkScoring c s = resetGame c (setPlayer2Score (player2Score s + 1) s).
Proof. unfold checkScoring; now intros ->. Qed.

Lemma checkScoring_right c s :
  exitsLeft s = false -> exitsRight c s = true ->
  checkScoring c s = resetGame c (setPlayer1Score (player1Score s + 1) s).
Proof. unfold checkScoring; now intros -> ->. Qed.

Lemma checkGameOver_nf s :
  checkGameOver s =
  setGameOver (if (player1Score s =? maxScore) || (player2Score s =? maxScore)
               then true else gameOver s) s.
Proof. unfold checkGameOver; destruct (_ || _); [done | now destruct s]. Qed.

Lemma update_running c s :
  gameOver s = false -> update c s = checkGameOver (checkScoring c (bounced c s)).
Proof. unfold update; now intros ->. Qed.

(** The paddles after a frame: unchanged, or both re-centred. *)
Lemma update_paddles c s :
  (leftPaddleY (update c s) = leftPaddleY s /\ rightPaddleY (update c s) = rightPaddleY s) \/
  (leftPaddleY (update c s) = centerPaddleY c /\
   rightPaddleY (update c s) = centerPaddleY c).
Proof.
  destruct (gameOver s) eqn:Ho; [left; unfold update; now rewrite Ho|].
  rewrite update_running, checkGameOver_nf by done. simpl.
  destruct (exitsLeft (bounced c s)) eqn:El;
    [rewrite checkScoring_left by done; now right|].
  destruct (exitsRight c (bounced c s)) eqn:Er;
    [rewrite checkScoring_right by done; now right|].
  rewrite checkScoring_stay by done. left. now rewrite bounced_fields.
Qed.

Lemma update_speedInv c s : speedInv s -> speedInv (update c s).
Proof.
  intros [Hx Hy]. destruct (gameOver s) eqn:Ho; [unfold update; rewrite Ho; done|].
  rewrite update_running, checkGameOver_nf by done.
  unfold speedInv, checkScoring, resetGame; rewrite bounced_fields; simpl.
  repeat case_if; simpl; rewrite ?Z.abs_opp; auto.
Qed.

Lemma onKeyDown_ball c k s :
  ballX (onKeyDown c k s) = ballX s /\ ballY (onKeyDown c k s) = ballY s /\
  ballSpeedX (onKeyDown c k s) = ballSpeedX s /\
  ballSpeedY (onKeyDown c k s) = ballSpeedY s.
Proof.
  unfold onKeyDown, player2Down, player2Up, player1Down, player1Up.
  repeat case_if; simpl; auto.
Qed.

Lemma onKeyDown_speedInv c k s : speedInv s -> speedInv (onKeyDown c k s).
Proof. unfold speedInv. destruct (onKeyDown_ball c k s) as (_ & _ & -> & ->). done. Qed.

(** A property of paddle positions kept by every move up from a
    position below the top and every move down from a position above
    [height - paddleHeight] is kept by the listener. *)
Section KeyPreserve.
Variable c : HTMLCanvas.
Variable P : Z -> Prop.
Hypothesis P_up : forall y, P y -> 0 < y -> P (y - paddleSpeed).
Hypothesis P_down :
  forall y, P y -> y < height c - paddleHeight -> P (y + paddleSpeed).

(** Each of the four guarded moves of the listener. *)
Lemma key_block_paddles k f t :
  f = player1Up k \/ f = player1Down c k \/ f = player2Up k \/ f = player2Down c k ->
  paddlesP P t -> paddlesP P (f t).
Proof.
  intros Hf [Hl Hr]. unfold paddlesP.
  destruct Hf as [->|[->|[->| ->]]];
    unfold player1Up, player1Down, player2Up, player2Down;
    case_if; simpl; intuition auto.
Qed.

Lemma onKeyDown_paddles k s : paddlesP P s -> paddlesP P (onKeyDown c k s).
Proof.
  unfold onKeyDown. destruct (gameOver s); [done|].
  intros H. do 4 (apply (key_block_paddles k); [tauto|]). exact H.
Qed.
End KeyPreserve.

Section Aligned.
Variable c : HTMLCanvas.
Hypothesis Hfits : fits c.
Hypothesis Haligned : centerPaddleY c mod paddleSpeed = 0.

Lemma alignedInv_center : alignedInv c (centerPaddleY c).
Proof. destruct Hfits. unfold alignedInv. split; [consts; zlia | exact Haligned]. Qed.

Lemma alignedInv_update s :
  paddlesP (alignedInv c) s -> paddlesP (alignedInv c) (update c s).
Proof.
  pose proof alignedInv_center. unfold paddlesP.
  destruct (update_paddles c s) as [[-> ->] | [-> ->]]; tauto.
Qed.

Lemma alignedInv_up y : alignedInv c y -> 0 < y -> alignedInv c (y - paddleSpeed).
Proof. unfold alignedInv; consts; intros; zlia. Qed.

Lemma alignedInv_down y :
  alignedInv c y -> y < height c - paddleHeight -> alignedInv c (y + paddleSpeed).
Proof.
  pose proof (height_half c). revert Haligned.
  unfold alignedInv, centerPaddleY; consts; intros; zlia.
Qed.

Lemma alignedInv_onKeyDown k s :
  paddlesP (alignedInv c) s -> paddlesP (alignedInv c) (onKeyDown c k s).
Proof. apply onKeyDown_paddles; [apply alignedInv_up | apply alignedInv_down]. Qed.

Lemma reachable_aligned s : reachable c s -> paddlesP (alignedInv c) s.
Proof.
  revert s. apply (reachable_ind c).
  - pose proof alignedInv_center. split; assumption.
  - apply alignedInv_update.
  - apply alignedInv_onKeyDown.
Qed.
End Aligned.

(** [ArrowUp] in a running game moves the left paddle up by [paddleSpeed]
    while it is below the top edge, and touches nothing else. *)
Lemma onKeyDown_ArrowUp c s :
  gameOver s = false -> 0 < leftPaddleY s ->
  onKeyDown c "ArrowUp" s = setLeftPaddleY (leftPaddleY s - paddleSpeed) s.
Proof.
  intros Ho Hy. unfold onKeyDown, player1Up, player1Down, player2Up, player2Down.
  rewrite Ho. replace (leftPaddleY s >? 0) with true by (symmetry; apply Z.gtb_lt; lia).
  reflexivity.
Qed.

Lemma run_ArrowUp c n s :
  gameOver s = false -> paddleSpeed * Z.of_nat n < leftPaddleY s + paddleSpeed ->
  leftPaddleY (run c (repeat (KeyDown "ArrowUp") n) s) =
  leftPaddleY s - paddleSpeed * Z.of_nat n.
Proof.
  revert s; induction n as [|n IH]; intros s Ho Hn; [simpl; lia|].
  simpl run. change (handle c (KeyDown "ArrowUp") s) with (onKeyDown c "ArrowUp" s).
  rewrite onKeyDown_ArrowUp by (exact Ho || (consts; lia)).
  rewrite IH; simpl; [consts; lia | exact Ho | consts; lia].
Qed.

Lemma exitsLeft_bounced c s :
  exitsLeft (bounced c s) = (ballX s + ballSpeedX s - ballSize / 2 <? 0).
Proof. now rewrite bounced_fields. Qed.

Lemma exitsRight_bounced c s :
  exitsRight c (bounced c s) = (ballX s + ballSpeedX s + ballSize / 2 >? width c).
Proof. now rewrite bounced_fields. Qed.

(** A frame in which the ball leaves the field on one side: the point,
    then [resetGame], then the latch. *)
Lemma update_exit_left c s :
  gameOver s = false -> ballX s + ballSpeedX s - ballSize / 2 < 0 ->
  update c s = checkGameOver (resetGame c (setPlayer2Score (player2Score s + 1) (bounced c s))).
Proof.
  intros Ho Hl. rewrite update_running, checkScoring_left by
    (try rewrite exitsLeft_bounced; autorewrite with pong_rw; auto).
  now replace (player2Score (bounced c s)) with (player2Score s)
    by now rewrite bounced_fields.
Qed.

Lemma update_exit_right c s :
  gameOver s = false -> 0 <= ballX s + ballSpeedX s - ballSize / 2 ->
  width c < ballX s + ballSpeedX s + ballSize / 2 ->
  update c s = checkGameOver (resetGame c (setPlayer1Score (player1Score s + 1) (bounced c s))).
Proof.
  intros Ho Hl Hr. rewrite update_running, checkScoring_right by
    (try rewrite ?exitsLeft_bounced, ?exitsRight_bounced; autorewrite with pong_rw; auto).
  now replace (player1Score (bounced c s)) with (player1Score s)
    by now rewrite bounced_fields.
Qed.

Lemma reachable_frameInv c s : fits c -> reachable c s -> frameInv c s.
Proof. intros Hf. apply (reachable_inv c Hf). Qed.

Lemma frameInv_setRightPaddleY c r s :
  frameInv c s -> paddleInv c r -> frameInv c (setRightPaddleY r s).
Proof. unfold frameInv, physicsInv; simpl; tauto. Qed.

(** The left player's two blocks of the listener keep the invariant. *)
Lemma player1_blocks_inv c k s :
  frameInv c s -> frameInv c (player1Down c k (player1Up k s)).
Proof.
  unfold frameInv, physicsInv, player1Down, player1Up.
  repeat case_if; simpl in *; intuition auto using paddleInv_up, paddleInv_down with lia.
Qed.

(** *** Frames without key events *)

Lemma run_frames_S c n s : run c (repeat Frame (S n)) s = run c (repeat Frame n) (update c s).
Proof. reflexivity. Qed.

Lemma run_frames_add c a b s :
  run c (repeat Frame (a + b)) s = run c (repeat Frame b) (run c (repeat Frame a) s).
Proof. now rewrite repeat_app, run_app. Qed.

Lemma orbitOk_spec c n s :
  orbitOk c n s = true ->
  (forall r, (r <= n)%nat -> quiet (run c (repeat Frame r) s) = true) /\
  run c (repeat Frame n) s = init c.
Proof.
  revert s. induction n as [|n IH]; intros s H; simpl in H;
    apply andb_true_iff in H as [Hq Hn].
  - split; [intros r Hr; now replace r with 0%nat by lia|].
    now apply bool_decide_eq_true in Hn.
  - destruct (IH _ Hn) as [Hall Hend]. split; [|exact Hend].
    intros [|r] Hr; [exact Hq|]. rewrite run_frames_S. apply Hall. lia.
Qed.

Lemma run_frames_periodic c p s q r :
  run c (repeat Frame p) s = s ->
  run c (repeat Frame (p * q + r)) s = run c (repeat Frame r) s.
Proof.
  intros Hp. rewrite run_frames_add. f_equal.
  induction q as [|q IH]; [now rewrite Nat.mul_0_r|].
  now rewrite Nat.mul_succ_r, run_frames_add, IH, Hp.
Qed.

Lemma fits_800x400 : fits canvas800x400.
Proof. unfold fits; consts; simpl; lia. Qed.

Lemma fits_300x150 : fits canvas300x150.
Proof. unfold fits; consts; simpl; lia. Qed.

(** The scores of every reachable state satisfy the invariant of the
    abstract score machine. *)
Lemma reachable_absInv c s : reachable c s -> abs_inv (absOf s).
Proof.
  exact (reachable_abs_inv_of (S:=state) c eq_refl (update_refines c) (onKeyDown_absOf c) s).
Qed.

(** ** Properties of [game.js] *)

(** C1: once [gameOver] is set, no sequence of frames and key events
    changes any variable of the game: the latch is permanent and the
    simulation is frozen. *)
Theorem run_frozen c evs (s : state) : gameOver s = true -> run c evs s = s.
Proof.
  exact (run_frozen_of (S:=state) c (update_frozen c) (onKeyDown_frozen c) evs s).
Qed.

Lemma run_frozen_witness :
  gameOver (setGameOver true (init canvas800x400)) = true /\
  run canvas800x400 [Frame; KeyDown "ArrowUp"; Frame]
    (setGameOver true (init canvas800x400)) = setGameOver true (init canvas800x400).
Proof. split; [reflexivity | apply run_frozen; reflexivity]. Defined.

(** C2: in every reachable state both scores are in [0 .. maxScore],
    [gameOver] is set exactly when one side has [maxScore] points, and
    the two sides never both have them. *)
Theorem reachable_scores c (s : state) :
  reachable c s ->
  0 <= player1Score s <= maxScore /\ 0 <= player2Score s <= maxScore /\
  (gameOver s = true <-> player1Score s = maxScore \/ player2Score s = maxScore) /\
  ~ (player1Score s = maxScore /\ player2Score s = maxScore).
Proof. exact (reachable_absInv c s). Qed.

Lemma reachable_scores_witness :
  reachable canvas800x400 (init canvas800x400) /\
  0 <= player1Score (init canvas800x400) <= maxScore /\
  0 <= player2Score (init canvas800x400) <= maxScore /\
  (gameOver (init canvas800x400) = true <->
   player1Score (init canvas800x400) = maxScore \/
   player2Score (init canvas800x400) = maxScore) /\
  ~ (player1Score (init canvas800x400) = maxScore /\
     player2Score (init canvas800x400) = maxScore).
Proof.
  assert (Hr : reachable canvas800x400 (init canvas800x400)) by apply star_refl.
  split; [exact Hr | exact (reachable_scores canvas800x400 (init canvas800x400) Hr)].
Defined.

(** C3: refinement: every frame of [game.js] is exactly one step of the
    abstract score machine [ScoreSpec.frame_step] (no point, or one point
    to one side, then the latch), and every key event leaves the scores
    and the latch unchanged. *)
Theorem frame_refines c k (s : state) :
  frame_step (absOf s) (absOf (update c s)) /\ absOf (onKeyDown c k s) = absOf s.
Proof. split; [apply update_refines | apply onKeyDown_absOf]. Qed.

(** C4: a frame in which the ball does not leave the field moves the
    ball by its velocity, flips [ballSpeedY] exactly when the moved ball
    touches the top or bottom wall and [ballSpeedX] exactly when it
    touches a paddle, keeps the paddles and scores, and latches
    [gameOver] when a score is [maxScore]. *)
Theorem update_rally c s :
  gameOver s = false ->
  0 <= ballX s + ballSpeedX s - ballSize / 2 ->
  ballX s + ballSpeedX s + ballSize / 2 <= width c ->
  let m := moveBall s in
  let s' := update c s in
  ballX s' = ballX s + ballSpeedX s /\ ballY s' = ballY s + ballSpeedY s /\
  ballSpeedX s' = (if hitsLeftPaddle m || hitsRightPaddle c m
                   then - ballSpeedX s else ballSpeedX s) /\
  ballSpeedY s' = (if hitsWall c m then - ballSpeedY s else ballSpeedY s) /\
  leftPaddleY s' = leftPaddleY s /\ rightPaddleY s' = rightPaddleY s /\
  player1Score s' = player1Score s /\ player2Score s' = player2Score s /\
  gameOver s' = (player1Score s =? maxScore) || (player2Score s =? maxScore).
Proof.
  intros Ho Hl Hr; cbv zeta. rewrite update_running by done.
  rewrite checkScoring_stay by
    (rewrite bounced_fields; unfold exitsLeft, exitsRight; simpl;
     autorewrite with pong_rw; lia).
  rewrite checkGameOver_nf, bounced_fields; simpl. rewrite Ho.
  repeat split. now destruct (_ || _).
Qed.

Lemma update_rally_witness :
  gameOver (init canvas800x400) = false /\
  0 <= ballX (init canvas800x400) + ballSpeedX (init canvas800x400) - ballSize / 2 /\
  ballX (init canvas800x400) + ballSpeedX (init canvas800x400) + ballSize / 2
    <= width canvas800x400 /\
  ballX (update canvas800x400 (init canvas800x400)) = 405 /\
  ballY (update canvas800x400 (init canvas800x400)) = 205.
Proof.
  refine (conj eq_refl (conj _ (conj _ _))); [vm_compute; discriminate .. |].
  destruct (update_rally canvas800x400 (init canvas800x400) eq_refl) as [Hx [Hy _]];
    [vm_compute; discriminate | vm_compute; discriminate |].
  rewrite Hx, Hy. split; reflexivity.
Defined.

(** C5: a frame in which the ball crosses the left boundary gives a
    point to player 2 and nothing to player 1, re-centres the ball and
    both paddles, negates the horizontal velocity the paddle test left,
    keeps the vertical one the wall test left, and latches [gameOver] when
    a score reaches [maxScore]. *)
Theorem update_point_player2 c (s : state) :
  gameOver s = false ->
  ballX s + ballSpeedX s - ballSize / 2 < 0 ->
  let m := moveBall s in
  let s' := update c s in
  player2Score s' = player2Score s + 1 /\ player1Score s' = player1Score s /\
  ballX s' = width c / 2 /\ ballY s' = height c / 2 /\
  leftPaddleY s' = centerPaddleY c /\ rightPaddleY s' = centerPaddleY c /\
  ballSpeedX s' = - (if hitsLeftPaddle m || hitsRightPaddle c m
                     then - ballSpeedX s else ballSpeedX s) /\
  ballSpeedY s' = (if hitsWall c m then - ballSpeedY s else ballSpeedY s) /\
  gameOver s' = (player1Score s =? maxScore) || (player2Score s + 1 =? maxScore).
Proof.
  intros Ho Hl; cbv zeta. rewrite update_exit_left by done.
  rewrite checkGameOver_nf, bounced_fields; simpl. rewrite Ho.
  repeat split. now destruct (_ || _).
Qed.

Lemma update_point_player2_witness :
  gameOver (mkState 170 170 3 200 (-5) 5 0 4 false) = false /\
  ballX (mkState 170 170 3 200 (-5) 5 0 4 false)
    + ballSpeedX (mkState 170 170 3 200 (-5) 5 0 4 false) - ballSize / 2 < 0 /\
  player2Score (update canvas800x400 (mkState 170 170 3 200 (-5) 5 0 4 false)) = 5 /\
  gameOver (update canvas800x400 (mkState 170 170 3 200 (-5) 5 0 4 false)) = true.
Proof.
  split; [reflexivity|]. split; [vm_compute; reflexivity|].
  destruct (update_point_player2 canvas800x400 (mkState 170 170 3 200 (-5) 5 0 4 false))
    as [-> (_ & _ & _ & _ & _ & _ & _ & ->)]; [reflexivity | vm_compute; reflexivity |].
  split; reflexivity.
Defined.

(** C6: a frame in which the ball crosses the right boundary (and not the
    left one) gives a point to player 1, with the same reset. *)
Theorem update_point_player1 c (s : state) :
  gameOver s = false ->
  0 <= ballX s + ballSpeedX s - ballSize / 2 ->
  width c < ballX s + ballSpeedX s + ballSize / 2 ->
  let m := moveBall s in
  let s' := update c s in
  player1Score s' = player1Score s + 1 /\ player2Score s' = player2Score s /\
  ballX s' = width c / 2 /\ ballY s' = height c / 2 /\
  leftPaddleY s' = centerPaddleY c /\ rightPaddleY s' = centerPaddleY c /\
  ballSpeedX s' = - (if hitsLeftPaddle m || hitsRightPaddle c m
                     then - ballSpeedX s else ballSpeedX s) /\
  ballSpeedY s' = (if hitsWall c m then - ballSpeedY s else ballSpeedY s) /\
  gameOver s' = (player1Score s + 1 =? maxScore) || (player2Score s =? maxScore).
Proof.
  intros Ho Hl Hr; cbv zeta. rewrite update_exit_right by done.
  rewrite checkGameOver_nf, bounced_fields; simpl. rewrite Ho.
  repeat split. now destruct (_ || _).
Qed.

Lemma update_point_player1_witness :
  gameOver (mkState 170 170 797 100 5 5 2 0 false) = false /\
  0 <= ballX (mkState 170 170 797 100 5 5 2 0 false)
         + ballSpeedX (mkState 170 170 797 100 5 5 2 0 false) - ballSize / 2 /\
  width canvas800x400 < ballX (mkState 170 170 797 100 5 5 2 0 false)
         + ballSpeedX (mkState 170 170 797 100 5 5 2 0 false) + ballSize / 2 /\
  player1Score (update canvas800x400 (mkState 170 170 797 100 5 5 2 0 false)) = 3 /\
  ballX (update canvas800x400 (mkState 170 170 797 100 5 5 2 0 false)) = 400.
Proof.
  split; [reflexivity|]. split; [vm_compute; discriminate|].
  split; [vm_compute; reflexivity|].
  destruct (update_point_player1 canvas800x400 (mkState 170 170 797 100 5 5 2 0 false))
    as [-> (_ & -> & _)];
    [reflexivity | vm_compute; discriminate | vm_compute; reflexivity |].
  split; reflexivity.
Defined.

(** C7: on a canvas that holds a paddle and a ball, the ball's centre is
    inside the field in every reachable state: vertically within
    [0 .. height] (it may overlap a wall by its collision radius for one
    frame, as the spec allows) and horizontally at least a collision
    radius away from both side boundaries. *)
Theorem reachable_ball_in_field c (s : state) :
  fits c -> reachable c s ->
  0 <= ballY s <= height c /\ ballSize / 2 <= ballX s <= width c - ballSize / 2.
Proof.
  intros Hf Hr. destruct (reachable_frameInv c s Hf Hr) as [(_ & Hy & _) Hx].
  split; [apply Hy | apply Hx].
Qed.

Lemma reachable_ball_in_field_witness :
  fits canvas800x400 /\ reachable canvas800x400 (init canvas800x400) /\
  0 <= ballY (init canvas800x400) <= height canvas800x400 /\
  ballSize / 2 <= ballX (init canvas800x400) <= width canvas800x400 - ballSize / 2.
Proof.
  pose proof fits_800x400 as Hf.
  assert (Hr : reachable canvas800x400 (init canvas800x400)) by apply star_refl.
  split; [exact Hf | split; [exact Hr | exact (reachable_ball_in_field _ _ Hf Hr)]].
Defined.

(** C8: both components of the ball's velocity keep the magnitude 5 in
    every reachable state, on any canvas: collisions and resets only flip
    their signs. *)
Theorem reachable_speed c (s : state) :
  reachable c s -> Z.abs (ballSpeedX s) = 5 /\ Z.abs (ballSpeedY s) = 5.
Proof.
  revert s. apply (reachable_ind c); [split; reflexivity | apply update_speedInv |].
  intros k s. apply onKeyDown_speedInv.
Qed.

Lemma reachable_speed_witness :
  reachable canvas300x150 (run canvas300x150 [Frame; KeyDown "w"; Frame] (init canvas300x150)) /\
  Z.abs (ballSpeedX (run canvas300x150 [Frame; KeyDown "w"; Frame] (init canvas300x150))) = 5 /\
  Z.abs (ballSpeedY (run canvas300x150 [Frame; KeyDown "w"; Frame] (init canvas300x150))) = 5.
Proof.
  pose proof (reachable_run canvas300x150 [Frame; KeyDown "w"; Frame]) as Hr.
  split; [exact Hr | exact (reachable_speed _ _ Hr)].
Defined.

(** C9: on a canvas that holds a paddle, each paddle stays within less
    than one [paddleSpeed] step outside the field in every reachable
    state: the listener checks the bound before moving. *)
Theorem reachable_paddles_bounded c (s : state) :
  fits c -> reachable c s ->
  - paddleSpeed < leftPaddleY s < height c - paddleHeight + paddleSpeed /\
  - paddleSpeed < rightPaddleY s < height c - paddleHeight + paddleSpeed.
Proof.
  intros Hf Hr. destruct (reachable_frameInv c s Hf Hr) as [(_ & _ & Hl & Hr') _].
  split; assumption.
Qed.

Lemma reachable_paddles_bounded_witness :
  fits canvas300x150 /\
  reachable canvas300x150 (run canvas300x150 (repeat (KeyDown "ArrowUp") 5) (init canvas300x150)) /\
  - paddleSpeed < leftPaddleY (run canvas300x150 (repeat (KeyDown "ArrowUp") 5) (init canvas300x150))
    < height canvas300x150 - paddleHeight + paddleSpeed /\
  - paddleSpeed < rightPaddleY (run canvas300x150 (repeat (KeyDown "ArrowUp") 5) (init canvas300x150))
    < height canvas300x150 - paddleHeight + paddleSpeed.
Proof.
  pose proof fits_300x150 as Hf.
  pose proof (reachable_run canvas300x150 (repeat (KeyDown "ArrowUp") 5)) as Hr.
  split; [exact Hf | split; [exact Hr | exact (reachable_paddles_bounded _ _ Hf Hr)]].
Defined.

(** C10: when the centred paddle position is a multiple of [paddleSpeed]
    (as on the spec's 800 by 400 canvas), the spec's clamp holds exactly:
    each paddle stays within [0 .. height - paddleHeight] in every
    reachable state. *)
Theorem reachable_paddles_clamped c (s : state) :
  fits c -> centerPaddleY c mod paddleSpeed = 0 -> reachable c s ->
  0 <= leftPaddleY s <= height c - paddleHeight /\
  0 <= rightPaddleY s <= height c - paddleHeight.
Proof.
  intros Hf Ha Hr.
  destruct (reachable_aligned c Hf Ha s Hr) as [[Hl _] [Hr' _]]. split; assumption.
Qed.

Lemma reachable_paddles_clamped_witness :
  fits canvas800x400 /\ centerPaddleY canvas800x400 mod paddleSpeed = 0 /\
  reachable canvas800x400 (run canvas800x400 (repeat (KeyDown "ArrowUp") 20) (init canvas800x400)) /\
  0 <= leftPaddleY (run canvas800x400 (repeat (KeyDown "ArrowUp") 20) (init canvas800x400))
    <= height canvas800x400 - paddleHeight /\
  0 <= rightPaddleY (run canvas800x400 (repeat (KeyDown "ArrowUp") 20) (init canvas800x400))
    <= height canvas800x400 - paddleHeight.
Proof.
  pose proof fits_800x400 as Hf.
  assert (Ha : centerPaddleY canvas800x400 mod paddleSpeed = 0) by reflexivity.
  pose proof (reachable_run canvas800x400 (repeat (KeyDown "ArrowUp") 20)) as Hr.
  split; [exact Hf | split; [exact Ha | split; [exact Hr |]]].
  exact (reachable_paddles_clamped _ _ Hf Ha Hr).
Defined.

(** C11: the spec's clamp [leftPaddleY >= 0] fails exactly when the
    centred paddle position is not a multiple of [paddleSpeed]: on every
    canvas that holds a paddle and a ball, some sequence of events takes
    the left paddle above the top edge if and only if [centerPaddleY mod
    paddleSpeed <> 0], and then [ArrowUp] pressed [centerPaddleY / 10 + 1]
    times leaves it less than one step above it (the guard [> 0] of line
    137 is tested before the move, not after). *)
Theorem paddle_overshoot c :
  fits c ->
  (exists s : state, reachable c s /\ - paddleSpeed < leftPaddleY s < 0) <->
  centerPaddleY c mod paddleSpeed <> 0.
Proof.
  intros Hf. split.
  - intros (s & Hr & Hy) Ha.
    destruct (reachable_aligned c Hf Ha s Hr) as [[Hl _] _]. lia.
  - intros Ha.
    assert (H0 : 0 <= centerPaddleY c) by (destruct Hf; consts; zlia).
    set (n := Z.to_nat (centerPaddleY c / paddleSpeed + 1)).
    exists (run c (repeat (KeyDown "ArrowUp") n) (init c)).
    split; [exact (reachable_run c (repeat (KeyDown "ArrowUp") n))|].
    assert (Hn : Z.of_nat n = centerPaddleY c / paddleSpeed + 1)
      by (unfold n; consts; rewrite Z2Nat.id; zlia).
    rewrite run_ArrowUp; simpl; rewrite ?Hn; [| reflexivity |]; revert Ha H0; consts; zlia.
Qed.

Lemma paddle_overshoot_witness :
  fits canvas300x150 /\
  ((exists s : state, reachable canvas300x150 s /\ - paddleSpeed < leftPaddleY s < 0) <->
   centerPaddleY canvas300x150 mod paddleSpeed <> 0).
Proof. split; [exact fits_300x150 | exact (paddle_overshoot canvas300x150 fits_300x150)]. Defined.

(** C12: on a canvas of at most 2^52 by 2^52 pixels that holds a paddle
    and a ball, every number of every reachable state is a safe integer,
    so the integer model computes what the doubles of JavaScript do. *)
Theorem reachable_safe_integers c (s : state) :
  fits c -> width c <= 2 ^ 52 -> height c <= 2 ^ 52 -> reachable c s ->
  Forall safeInteger [leftPaddleY s; rightPaddleY s; ballX s; ballY s;
                      ballSpeedX s; ballSpeedY s; player1Score s; player2Score s].
Proof.
  intros Hf Hw Hh Hr.
  destruct (reachable_frameInv c s Hf Hr) as [([Hvx Hvy] & Hy & Hl & Hr') Hx].
  destruct (reachable_absInv c s Hr) as (H1 & H2 & _).
  unfold paddleInv, ballYInv, ballXInv, safeInteger, maxSafeInteger in *; simpl in *.
  consts. repeat constructor; zlia.
Qed.

Lemma reachable_safe_integers_witness :
  fits canvas800x400 /\ width canvas800x400 <= 2 ^ 52 /\ height canvas800x400 <= 2 ^ 52 /\
  reachable canvas800x400 (init canvas800x400) /\
  Forall safeInteger [leftPaddleY (init canvas800x400); rightPaddleY (init canvas800x400);
    ballX (init canvas800x400); ballY (init canvas800x400);
    ballSpeedX (init canvas800x400); ballSpeedY (init canvas800x400);
    player1Score (init canvas800x400); player2Score (init canvas800x400)].
Proof.
  pose proof fits_800x400 as Hf.
  assert (Hw : width canvas800x400 <= 2 ^ 52) by (simpl; lia).
  assert (Hh : height canvas800x400 <= 2 ^ 52) by (simpl; lia).
  assert (Hr : reachable canvas800x400 (init canvas800x400)) by apply star_refl.
  split; [exact Hf | split; [exact Hw | split; [exact Hh | split; [exact Hr |]]]].
  exact (reachable_safe_integers _ _ Hf Hw Hh Hr).
Defined.

(** C14: the listener of a running game: [ArrowUp] and [ArrowDown] move
    the left paddle, [w] and [s] the right one, each by [paddleSpeed] and
    only when the paddle is not yet at (or past) the bound it moves
    towards; every other key is ignored. *)
Theorem onKeyDown_keys c (s : state) :
  gameOver s = false ->
  onKeyDown c "ArrowUp" s =
    (if leftPaddleY s >? 0 then setLeftPaddleY (leftPaddleY s - paddleSpeed) s else s) /\
  onKeyDown c "ArrowDown" s =
    (if leftPaddleY s <? height c - paddleHeight
     then setLeftPaddleY (leftPaddleY s + paddleSpeed) s else s) /\
  onKeyDown c "w" s =
    (if rightPaddleY s >? 0 then setRightPaddleY (rightPaddleY s - paddleSpeed) s else s) /\
  onKeyDown c "s" s =
    (if rightPaddleY s <? height c - paddleHeight
     then setRightPaddleY (rightPaddleY s + paddleSpeed) s else s) /\
  (forall k, k <> "ArrowUp" -> k <> "ArrowDown" -> k <> "w" -> k <> "s" ->
   onKeyDown c k s = s).
Proof.
  intros Ho. unfold onKeyDown, player2Down, player2Up, player1Down, player1Up.
  rewrite Ho. repeat split; simpl; try (case_if; reflexivity).
  intros k H1 H2 H3 H4.
  apply String.eqb_neq in H1, H2, H3, H4. now rewrite H1, H2, H3, H4.
Qed.

Lemma onKeyDown_keys_witness :
  gameOver (setLeftPaddleY 0 (init canvas800x400)) = false /\
  onKeyDown canvas800x400 "ArrowUp" (setLeftPaddleY 0 (init canvas800x400)) =
  setLeftPaddleY 0 (init canvas800x400).
Proof.
  split; [reflexivity|].
  destruct (onKeyDown_keys canvas800x400 (setLeftPaddleY 0 (init canvas800x400)) eq_refl)
    as [-> _].
  reflexivity.
Defined.

(** C15: the serve after a point goes towards the side that scored, not
    towards the side scored against as the spec says: when the ball leaves
    on the left without touching a paddle in that frame, [resetGame]
    negates its (negative) horizontal velocity and the new ball moves to
    the right, towards player 2, who just scored. *)
Theorem serve_toward_scorer c (s : state) :
  gameOver s = false -> ballSpeedX s < 0 ->
  ballX s + ballSpeedX s - ballSize / 2 < 0 ->
  (hitsLeftPaddle (moveBall s) || hitsRightPaddle c (moveBall s)) = false ->
  player2Score (update c s) = player2Score s + 1 /\ 0 < ballSpeedX (update c s).
Proof.
  intros Ho Hv Hl Hp. rewrite update_exit_left by done.
  rewrite checkGameOver_nf, bounced_fields, Hp; simpl. lia.
Qed.

Lemma serve_toward_scorer_witness :
  gameOver (mkState 170 170 3 100 (-5) 5 0 0 false) = false /\
  ballSpeedX (mkState 170 170 3 100 (-5) 5 0 0 false) < 0 /\
  ballX (mkState 170 170 3 100 (-5) 5 0 0 false)
    + ballSpeedX (mkState 170 170 3 100 (-5) 5 0 0 false) - ballSize / 2 < 0 /\
  (hitsLeftPaddle (moveBall (mkState 170 170 3 100 (-5) 5 0 0 false))
   || hitsRightPaddle canvas800x400 (moveBall (mkState 170 170 3 100 (-5) 5 0 0 false)))
    = false /\
  0 < ballSpeedX (update canvas800x400 (mkState 170 170 3 100 (-5) 5 0 0 false)).
Proof.
  split; [reflexivity|]. split; [reflexivity|]. split; [vm_compute; reflexivity|].
  split; [reflexivity|].
  apply (serve_toward_scorer canvas800x400 (mkState 170 170 3 100 (-5) 5 0 0 false));
    vm_compute; reflexivity.
Defined.

(** C16: [draw] shows the game-over message exactly when [gameOver] is
    set. *)
Theorem draw_gameOver_message c (s : state) :
  In (FillText "Game Over You Won" (width c / 2 - 120) (height c / 2)) (draw c s) <->
  gameOver s = true.
Proof.
  unfold draw; destruct (gameOver s); simpl; split; intros H;
    intuition (discriminate || congruence).
Qed.

(** C28: nothing forces a point: on the spec's 800 by 400 canvas, if
    nobody presses a key the ball returns to its starting position and
    velocity every 960 frames, so no point is ever scored and the game
    never ends. *)
Theorem idle_game_never_ends n :
  let s := run canvas800x400 (repeat Frame n) (init canvas800x400) in
  gameOver s = false /\ player1Score s = 0 /\ player2Score s = 0.
Proof.
  assert (Ho : orbitOk canvas800x400 960 (init canvas800x400) = true)
    by (vm_compute; reflexivity).
  destruct (orbitOk_spec _ _ _ Ho) as [Hall Hp].
  assert (Hq : quiet (run canvas800x400 (repeat Frame n) (init canvas800x400)) = true).
  { rewrite (Nat.div_mod_eq n 960), run_frames_periodic by exact Hp.
    apply Hall. pose proof (Nat.mod_upper_bound n 960). lia. }
  unfold quiet in Hq. repeat rewrite andb_true_iff in Hq.
  destruct Hq as [[Hg H1] H2]. cbv zeta.
  rewrite negb_true_iff in Hg. rewrite Z.eqb_eq in H1, H2. auto.
Qed.

(** C29: the score labels drawn by [drawScores] read back as the scores:
    the number after ["Player 1: "] on the canvas is [player1Score] and
    the number after ["Player 2: "] is [player2Score], for every state. *)
Theorem draw_score_labels c (s : state) :
  readLabel "Player 1: " (draw c s) = Some (player1Score s) /\
  readLabel "Player 2: " (draw c s) = Some (player2Score s).
Proof.
  unfold draw, clearCanvas, drawRect, drawBall, drawScores. cbn [app readLabel].
  rewrite stripPrefix_app, parseNumber_numberToString. split; [reflexivity|].
  simpl stripPrefix. cbn [readLabel]. exact (parseNumber_numberToString _).
Qed.

(** C13: every call the renderer makes is well typed for the 2D context:
    on a canvas of at most 2^52 by 2^52 pixels that holds a paddle and a
    ball, [draw] of any reachable state passes only safe integers (finite
    doubles) to [clearRect], [fillRect], [arc] and [fillText], and a
    non-negative radius to [arc], so no call is dropped or throws. *)
Theorem draw_calls_well_typed c (s : state) :
  fits c -> width c <= 2 ^ 52 -> height c <= 2 ^ 52 -> reachable c s ->
  forallb cmdWellTyped (draw c s) = true.
Proof.
  intros Hf Hw Hh Hr. destruct (reachable_frameInv c s Hf Hr) as [(_ & Hy & Hl & Hr') Hx].
  pose proof (width_nonneg c). pose proof (height_nonneg c). destruct Hf.
  unfold paddleInv, ballYInv, ballXInv in *; simpl in *.
  unfold draw, clearCanvas, drawRect, drawBall, drawScores, drawGameOver.
  destruct (gameOver s); cbn [app forallb cmdWellTyped]; unfold safeIntb, maxSafeInteger;
    consts; repeat (apply andb_true_intro; split); try reflexivity; apply Z.leb_le; zlia.
Qed.

Lemma draw_calls_well_typed_witness :
  let s := run canvas800x400 (repeat (KeyDown "w") 3 ++ repeat Frame 40) (init canvas800x400) in
  fits canvas800x400 /\ width canvas800x400 <= 2 ^ 52 /\ height canvas800x400 <= 2 ^ 52 /\
  reachable canvas800x400 s /\ forallb cmdWellTyped (draw canvas800x400 s) = true.
Proof.
  cbv zeta. pose proof fits_800x400 as Hf.
  assert (Hw : width canvas800x400 <= 2 ^ 52) by (simpl; lia).
  assert (Hh : height canvas800x400 <= 2 ^ 52) by (simpl; lia).
  pose proof (reachable_run (S:=state) canvas800x400
    (repeat (KeyDown "w") 3 ++ repeat Frame 40)) as Hr.
  split; [exact Hf | split; [exact Hw | split; [exact Hh | split; [exact Hr |]]]].
  exact (draw_calls_well_typed _ _ Hf Hw Hh Hr).
Defined.

(** [game.js] meets the contract of [ScoreSpec]: the generic theorems
    on events hold of it. *)
#[global] Instance twoPlayerLaws : PongLaws state.
Proof.
  split; intros c.
  - reflexivity.
  - apply update_refines.
  - apply onKeyDown_absOf.
  - apply update_frozen.
  - intros k; apply onKeyDown_frozen.
Qed.

End TwoPlayer.
