(* ===== verification/OnePlayer.v ===== *)
(** * The game against the computer, [src/oneplayer.js]

    Module [OnePlayer]: the module-level variables of [oneplayer.js] as
    the record [state] ([computerScore] in place of [player2Score]); the
    blocks of [update] (lines 67-115) as in [TwoPlayer], with the
    computer's policy [computerMove] (lines 88-92) between the paddle test
    and the scoring test; the side effects of [update] and [resetGame] on
    the page as the inductive [effect]: the canvas calls of the extra
    [draw]/[drawGameOver] on the game-over frame, the write of
    [canvas.style.backgroundColor] and the [setTimeout] of lines 126-129;
    the listener [onKeyDown] (left paddle only); [draw] and [gameLoop].

    The page around the game is the record [world]: the game state, the
    background colour and the pending timers; [wstep] is the step
    relation of the page (a frame, a key event, or the oldest pending
    timer firing), [wrun] its executable counterpart.

    [oneplayer.js] copies the ball physics, the scoring and the latch of
    [game.js] line for line. [toTwo] reads a one-player state as a
    two-player state ([computerScore] as [player2Score]); the lemma
    [update_agrees_aux] (and the claim C17) says a one-player frame is the
    two-player frame on the same state with only the right paddle put
    where the computer moved it. From it the game gets its [PongLaws]
    instance (score refinement and latch) and the ball and paddle
    invariants proved in [TwoPlayer]. *)

From Stdlib Require Import ZArith Lia String List.
From stdpp Require Import base decidable numbers strings.
From S2P Require Import Prelude Canvas ScoreSpec TwoPlayer.
Import ListNotations ScoreSpec.
Open Scope Z_scope.

Module OnePlayer.

(** ** Constants (lines 6-26) *)
Definition paddleWidth : Z := 10.
Definition paddleHeight : Z := 60.
Definition paddleSpeed : Z := 10.
Definition ballSize : Z := 10.

(** ** State (lines 8-27) *)
Record state := mkState {
  leftPaddleY : Z;
  rightPaddleY : Z;
  ballX : Z;
  ballY : Z;
  ballSpeedX : Z;
  ballSpeedY : Z;
  player1Score : Z;
  computerScore : Z;
  gameOver : bool
}.

#[global] Instance state_eq_dec : EqDecision state.
Proof. solve_decision. Defined.

Definition setLeftPaddleY v s := mkState v (rightPaddleY s) (ballX s) (ballY s)
  (ballSpeedX s) (ballSpeedY s) (player1Score s) (computerScore s) (gameOver s).
Definition setRightPaddleY v s := mkState (leftPaddleY s) v (ballX s) (ballY s)
  (ballSpeedX s) (ballSpeedY s) (player1Score s) (computerScore s) (gameOver s).
Definition setBallSpeedX v s := mkState (leftPaddleY s) (rightPaddleY s) (ballX s)
  (ballY s) v (ballSpeedY s) (player1Score s) (computerScore s) (gameOver s).
Definition setBallSpeedY v s := mkState (leftPaddleY s) (rightPaddleY s) (ballX s)
  (ballY s) (ballSpeedX s) v (player1Score s) (computerScore s) (gameOver s).
Definition setPlayer1Score v s := mkState (leftPaddleY s) (rightPaddleY s) (ballX s)
  (ballY s) (ballSpeedX s) (ballSpeedY s) v (computerScore s) (gameOver s).
Definition setComputerScore v s := mkState (leftPaddleY s) (rightPaddleY s) (ballX s)
  (ballY s) (ballSpeedX s) (ballSpeedY s) (player1Score s) v (gameOver s).
Definition setGameOver v s := mkState (leftPaddleY s) (rightPaddleY s) (ballX s)
  (ballY s) (ballSpeedX s) (ballSpeedY s) (player1Score s) (computerScore s) v.

(** ** Effects on the page *)

(** A timer of [setTimeout]: its delay and the colour its callback
    writes to [canvas.style.backgroundColor] (the only callback of the
    code). *)
Record timer := mkTimer { delay : Z; callbackColor : string }.

Inductive effect :=
| Paint (c : cmd)
| SetBackground (color : string)
| SetTimeout (t : timer).

Section Game.
Variable canvas : HTMLCanvas.

Definition centerPaddleY : Z := height canvas / 2 - paddleHeight / 2.

Definition init : state :=
  mkState centerPaddleY centerPaddleY (width canvas / 2) (height canvas / 2)
    5 5 0 0 false.

(** ** The renderer, lines 30-64 and 133-154 *)
Definition drawRect (x y w h : Z) (color : string) : list cmd :=
  [SetFillStyle color; FillRect x y w h].

Definition drawBall (x y size : Z) (color : string) : list cmd :=
  [SetFillStyle color; BeginPath; Arc x y size Angle0 Angle2PI; Fill].

Definition drawScores (s : state) : list cmd :=
  [SetFillStyle "white"; SetFont "20px Arial";
   FillText ("Player: " ++ numberToString (player1Score s)) 20 30;
   FillText ("Computer: " ++ numberToString (computerScore s)) (width canvas - 140) 30].

Definition drawGameOver (message : string) : list cmd :=
  [SetFillStyle "white"; SetFont "40px Arial";
   FillText "Game Over" (width canvas / 2 - 120) (height canvas / 2 - 30);
   FillText message (width canvas / 2 - 100) (height canvas / 2 + 20);
   SetFont "20px Arial";
   FillText "Press F5 to restart" (width canvas / 2 - 100) (height canvas / 2 + 70)].

Definition clearCanvas : list cmd := [ClearRect 0 0 (width canvas) (height canvas)].

(** The message of lines 109-113 and 148-152. *)
Definition gameOverMessage (s : state) : string :=
  if player1Score s =? maxScore then "You Won!" else "You Lost, Try Again".

Definition draw (s : state) : list cmd :=
  clearCanvas
  ++ drawRect 0 (leftPaddleY s) paddleWidth paddleHeight "blue"
  ++ drawRect (width canvas - paddleWidth) (rightPaddleY s) paddleWidth paddleHeight "red"
  ++ drawBall (ballX s) (ballY s) ballSize "white"
  ++ drawScores s
  ++ (if gameOver s then drawGameOver (gameOverMessage s) else []).

(** ** One frame: [update], lines 67-115 *)

(** Lines 71-72. *)
Definition moveBall (s : state) : state :=
  mkState (leftPaddleY s) (rightPaddleY s) (ballX s + ballSpeedX s)
    (ballY s + ballSpeedY s) (ballSpeedX s) (ballSpeedY s)
    (player1Score s) (computerScore s) (gameOver s).

(** Lines 75-77. *)
Definition hitsWall (s : state) : bool :=
  (ballY s - ballSize / 2 <? 0) || (ballY s + ballSize / 2 >? height canvas).

Definition wallBounce (s : state) : state :=
  if hitsWall s then setBallSpeedY (- ballSpeedY s) s else s.

(** Lines 80-85. *)
Definition hitsLeftPaddle (s : state) : bool :=
  (ballX s - ballSize / 2 <? paddleWidth) && (ballY s >? leftPaddleY s)
  && (ballY s <? leftPaddleY s + paddleHeight).

Definition hitsRightPaddle (s : state) : bool :=
  (ballX s + ballSize / 2 >? width canvas - paddleWidth)
  && (ballY s >? rightPaddleY s) && (ballY s <? rightPaddleY s + paddleHeight).

Definition paddleBounce (s : state) : state :=
  if hitsLeftPaddle s || hitsRightPaddle s then setBallSpeedX (- ballSpeedX s) s
  else s.

(** Lines 88-92: the computer moves its paddle one step towards the
    ball's height, within the bounds checked before the move. *)
Definition computerMove (s : state) : state :=
  if (rightPaddleY s + paddleHeight / 2 <? ballY s)
     && (rightPaddleY s <? height canvas - paddleHeight)
  then setRightPaddleY (rightPaddleY s + paddleSpeed) s
  else if (rightPaddleY s + paddleHeight / 2 >? ballY s) && (rightPaddleY s >? 0)
  then setRightPaddleY (rightPaddleY s - paddleSpeed) s
  else s.

(** [resetGame], lines 118-130: the reset, then the background colour and
    the timer whose callback writes the same colour again. *)
Definition resetGame (s : state) : state * list effect :=
  (mkState centerPaddleY centerPaddleY (width canvas / 2) (height canvas / 2)
     (- ballSpeedX s) (ballSpeedY s) (player1Score s) (computerScore s) (gameOver s),
   [SetBackground "greenYellow"; SetTimeout (mkTimer 100 "greenYellow")]).

(** Lines 95-103. *)
Definition exitsLeft (s : state) : bool := ballX s - ballSize / 2 <? 0.
Definition exitsRight (s : state) : bool := ballX s + ballSize / 2 >? width canvas.

Definition checkScoring (s : state) : state * list effect :=
  if exitsLeft s then resetGame (setComputerScore (computerScore s + 1) s)
  else if exitsRight s then resetGame (setPlayer1Score (player1Score s + 1) s)
  else (s, []).

(** Lines 106-114: the latch, and the final screen drawn at once. *)
Definition checkGameOver (s : state) : state * list effect :=
  if (player1Score s =? maxScore) || (computerScore s =? maxScore) then
    let s := setGameOver true s in
    (s, map Paint (draw s ++ drawGameOver (gameOverMessage s)))
  else (s, []).

Definition update (s : state) : state * list effect :=
  if gameOver s then (s, [])
  else
    let s := computerMove (paddleBounce (wallBounce (moveBall s))) in
    let '(s, e1) := checkScoring s in
    let '(s, e2) := checkGameOver s in
    (s, e1 ++ e2).

(** ** The [keydown] listener, lines 157-167 *)
Definition player1Up (key : string) (s : state) : state :=
  if (key =? "ArrowUp")%string && (leftPaddleY s >? 0)
  then setLeftPaddleY (leftPaddleY s - paddleSpeed) s else s.

Definition player1Down (key : string) (s : state) : state :=
  if (key =? "ArrowDown")%string && (leftPaddleY s <? height canvas - paddleHeight)
  then setLeftPaddleY (leftPaddleY s + paddleSpeed) s else s.

Definition onKeyDown (key : string) (s : state) : state :=
  if gameOver s then s else player1Down key (player1Up key s).

(** ** [gameLoop], lines 170-174 *)
Definition gameLoop (s : state) : state * list effect :=
  let '(s, e) := update s in (s, e ++ map Paint (draw s)).

End Game.

(** The part of a frame before the computer's move: the ball moved, its
    velocity flipped by the walls and the paddles. *)
Definition bounced c s : state := paddleBounce c (wallBounce c (moveBall s)).

(** The position [computerMove] gives the right paddle. *)
Definition computerTarget (c : HTMLCanvas) (s : state) : Z :=
  if (rightPaddleY s + paddleHeight / 2 <? ballY s)
     && (rightPaddleY s <? height c - paddleHeight)
  then rightPaddleY s + paddleSpeed
  else if (rightPaddleY s + paddleHeight / 2 >? ballY s) && (rightPaddleY s >? 0)
  then rightPaddleY s - paddleSpeed
  else rightPaddleY s.

Definition absOf (s : state) : abs := mkAbs (player1Score s) (computerScore s) (gameOver s).

#[global] Instance onePlayerGame : PongGame state := {|
  pg_init := init;
  pg_frame c s := fst (gameLoop c s);
  pg_key := onKeyDown;
  pg_abs := absOf
|}.

(** ** The page: background colour and pending timers *)

Record world := mkWorld { game : state; background : string; pending : list timer }.

Definition applyEffect (w : world) (e : effect) : world :=
  match e with
  | Paint _ => w
  | SetBackground color => mkWorld (game w) color (pending w)
  | SetTimeout t => mkWorld (game w) (background w) (pending w ++ [t])
  end.

(** The canvas calls among the effects, in order. *)
Fixpoint paints (es : list effect) : list cmd :=
  match es with
  | [] => []
  | Paint c :: rest => c :: paints rest
  | _ :: rest => paints rest
  end.

Definition worldInit (c : HTMLCanvas) (bg : string) : world := mkWorld (init c) bg [].

(** One event of the page. Timers with the same delay fire in the order
    they were scheduled; a timer may fire between any two events. *)
Inductive wstep (c : HTMLCanvas) : world -> world -> Prop :=
| ws_frame w :
    wstep c w (fold_left applyEffect (snd (gameLoop c (game w)))
                 (mkWorld (fst (gameLoop c (game w))) (background w) (pending w)))
| ws_key k w :
    wstep c w (mkWorld (onKeyDown c k (game w)) (background w) (pending w))
| ws_timer w t rest :
    pending w = t :: rest ->
    wstep c w (mkWorld (game w) (callbackColor t) rest).

Definition worldReachable (c : HTMLCanvas) (bg : string) (w : world) : Prop :=
  star (wstep c) (worldInit c bg) w.

(** The same events as a function, for concrete runs of the page. *)
Inductive wevent := WFrame | WKey (key : string) | WTimer.

Definition wstepFn (c : HTMLCanvas) (ev : wevent) (w : world) : world :=
  match ev with
  | WFrame => fold_left applyEffect (snd (gameLoop c (game w)))
                (mkWorld (fst (gameLoop c (game w))) (background w) (pending w))
  | WKey k => mkWorld (onKeyDown c k (game w)) (background w) (pending w)
  | WTimer =>
      match pending w with
      | [] => w
      | t :: rest => mkWorld (game w) (callbackColor t) rest
      end
  end.

Fixpoint wrun (c : HTMLCanvas) (evs : list wevent) (w : world) : world :=
  match evs with
  | [] => w
  | ev :: rest => wrun c rest (wstepFn c ev w)
  end.

(** The calls after the last clearing of the whole canvas: what is on
    screen when the frame ends. *)
Fixpoint fromLast (cl : cmd) (l : list cmd) : list cmd :=
  match l with
  | [] => []
  | x :: rest =>
      if existsb (fun y => bool_decide (y = cl)) rest then fromLast cl rest
      else if bool_decide (x = cl) then l else []
  end.

Definition visibleFrame (c : HTMLCanvas) (es : list effect) : list cmd :=
  fromLast (ClearRect 0 0 (width c) (height c)) (paints es).

(** Every pending timer writes ["greenYellow"], and while one is pending
    the background already is ["greenYellow"]. *)
Definition timersInv (w : world) : Prop :=
  Forall (fun t => callbackColor t = "greenYellow") (pending w) /\
  (pending w <> [] -> background w = "greenYellow").

(** A one-player state read as a two-player state: [computerScore] is
    player 2's score. *)
Definition toTwo (s : state) : TwoPlayer.state :=
  TwoPlayer.mkState (leftPaddleY s) (rightPaddleY s)
    (ballX s) (ballY s) (ballSpeedX s)
    (ballSpeedY s) (player1Score s) (computerScore s)
    (gameOver s).

Ltac consts :=
  unfold centerPaddleY, paddleWidth, paddleHeight, paddleSpeed, ballSize, maxScore in *.

(** ** Each stage of [update] in normal form *)

Lemma wallBounce_nf_1p c s :
  wallBounce c s = setBallSpeedY (if hitsWall c s then - ballSpeedY s else ballSpeedY s) s.
Proof. unfold wallBounce; destruct (hitsWall c s); [done | now destruct s]. Qed.

Lemma paddleBounce_nf_1p c s :
  paddleBounce c s =
  setBallSpeedX (if hitsLeftPaddle s || hitsRightPaddle c s
                 then - ballSpeedX s else ballSpeedX s) s.
Proof. unfold paddleBounce; destruct (_ || _); [done | now destruct s]. Qed.

Lemma bounced_fields_1p c s :
  let m := moveBall s in
  bounced c s =
  mkState (leftPaddleY s) (rightPaddleY s) (ballX s + ballSpeedX s) (ballY s + ballSpeedY s)
    (if hitsLeftPaddle m || hitsRightPaddle c m then - ballSpeedX s else ballSpeedX s)
    (if hitsWall c m then - ballSpeedY s else ballSpeedY s)
    (player1Score s) (computerScore s) (gameOver s).
Proof. unfold bounced. rewrite paddleBounce_nf_1p, wallBounce_nf_1p. reflexivity. Qed.

Lemma computerMove_nf c s : computerMove c s = setRightPaddleY (computerTarget c s) s.
Proof. unfold computerMove, computerTarget. repeat case_if; [done | done | now destruct s]. Qed.

Lemma checkScoring_stay_1p c s :
  exitsLeft s = false -> exitsRight c s = false -> checkScoring c s = (s, []).
Proof. unfold checkScoring; now intros -> ->. Qed.

Lemma checkScoring_left_1p c s :
  exitsLeft s = true -> checkScoring c s = resetGame c (setComputerScore (computerScore s + 1) s).
Proof. unfold checkScoring; now intros ->. Qed.

Lemma checkScoring_right_1p c s :
  exitsLeft s = false -> exitsRight c s = true ->
  checkScoring c s = resetGame c (setPlayer1Score (player1Score s + 1) s).
Proof. unfold checkScoring; now intros -> ->. Qed.

Lemma checkGameOver_fst c s :
  fst (checkGameOver c s) =
  setGameOver (if (player1Score s =? maxScore) || (computerScore s =? maxScore)
               then true else gameOver s) s.
Proof. unfold checkGameOver; destruct (_ || _); [done | now destruct s]. Qed.

Lemma update_fst c s :
  gameOver s = false ->
  fst (update c s) =
  fst (checkGameOver c (fst (checkScoring c (computerMove c (bounced c s))))).
Proof.
  unfold update; intros ->. fold (bounced c s).
  destruct (checkScoring c _) as [s2 e1]; simpl.
  now destruct (checkGameOver c s2).
Qed.

Lemma update_frozen_1p c s : gameOver s = true -> update c s = (s, []).
Proof. unfold update; now intros ->. Qed.

Lemma onKeyDown_frozen_1p c k s : gameOver s = true -> onKeyDown c k s = s.
Proof. unfold onKeyDown; now intros ->. Qed.

Lemma gameLoop_fst c s : fst (gameLoop c s) = fst (update c s).
Proof. unfold gameLoop; now destruct (update c s). Qed.

Lemma onKeyDown_absOf_1p c k s : absOf (onKeyDown c k s) = absOf s.
Proof. unfold onKeyDown, player1Down, player1Up. repeat case_if; reflexivity. Qed.

Lemma exitsLeft_computerMove c s : exitsLeft (computerMove c s) = exitsLeft s.
Proof. now rewrite computerMove_nf. Qed.

Lemma exitsRight_computerMove c s : exitsRight c (computerMove c s) = exitsRight c s.
Proof. now rewrite computerMove_nf. Qed.

(** Where a running frame leaves the right paddle: re-centred after a
    point, else where the computer moved it. *)
Lemma update_rightPaddleY c s :
  gameOver s = false ->
  rightPaddleY (fst (update c s)) =
  if exitsLeft (bounced c s) || exitsRight c (bounced c s)
  then centerPaddleY c else computerTarget c (bounced c s).
Proof.
  intros Ho. rewrite update_fst by done.
  destruct (exitsLeft (bounced c s)) eqn:El;
    [|destruct (exitsRight c (bounced c s)) eqn:Er].
  - rewrite checkScoring_left_1p by now rewrite exitsLeft_computerMove.
    rewrite checkGameOver_fst. reflexivity.
  - rewrite checkScoring_right_1p by now rewrite ?exitsLeft_computerMove, ?exitsRight_computerMove.
    rewrite checkGameOver_fst. reflexivity.
  - rewrite checkScoring_stay_1p by now rewrite ?exitsLeft_computerMove, ?exitsRight_computerMove.
    rewrite checkGameOver_fst, computerMove_nf. reflexivity.
Qed.

(** *** Effects of a frame *)

Lemma paints_app es1 es2 : paints (es1 ++ es2) = paints es1 ++ paints es2.
Proof. induction es1 as [|[] es1 IH]; simpl; rewrite ?IH; reflexivity. Qed.

Lemma paints_map l : paints (map Paint l) = l.
Proof. induction l; simpl; congruence. Qed.

Lemma fold_applyEffect_app w es1 es2 :
  fold_left applyEffect (es1 ++ es2) w = fold_left applyEffect es2 (fold_left applyEffect es1 w).
Proof. apply fold_left_app. Qed.

Lemma fold_applyEffect_paints w l : fold_left applyEffect (map Paint l) w = w.
Proof. revert w; induction l; simpl; auto. Qed.

Lemma gameLoop_snd c s :
  snd (gameLoop c s) = snd (update c s) ++ map Paint (draw c (fst (update c s))).
Proof. unfold gameLoop; now destruct (update c s). Qed.

Lemma update_snd c s :
  gameOver s = false ->
  snd (update c s) =
  snd (checkScoring c (computerMove c (bounced c s)))
  ++ snd (checkGameOver c (fst (checkScoring c (computerMove c (bounced c s))))).
Proof.
  unfold update; intros ->. fold (bounced c s).
  destruct (checkScoring c _) as [s2 e1]; simpl.
  now destruct (checkGameOver c s2).
Qed.

Lemma checkScoring_effects c t :
  snd (checkScoring c t) = [] \/
  snd (checkScoring c t) = [SetBackground "greenYellow"; SetTimeout (mkTimer 100 "greenYellow")].
Proof. unfold checkScoring; repeat case_if; auto. Qed.

Lemma checkScoring_gameOver c t : gameOver (fst (checkScoring c t)) = gameOver t.
Proof. unfold checkScoring; repeat case_if; reflexivity. Qed.

Lemma checkGameOver_effects c x :
  exists l, snd (checkGameOver c x) = map Paint l.
Proof.
  unfold checkGameOver; case_if; [eexists; reflexivity | now exists []].
Qed.

Lemma checkGameOver_latched c x :
  gameOver x = false -> gameOver (fst (checkGameOver c x)) = true ->
  checkGameOver c x =
  (setGameOver true x,
   map Paint (draw c (setGameOver true x) ++ drawGameOver c (gameOverMessage (setGameOver true x)))).
Proof. unfold checkGameOver; case_if; [done | simpl; congruence]. Qed.

(** *** The screen at the end of a frame *)

Lemma fromLast_app cl l1 l2 :
  existsb (fun y => bool_decide (y = cl)) l2 = true -> fromLast cl (l1 ++ l2) = fromLast cl l2.
Proof.
  intros H. induction l1 as [|x l1 IH]; [done|]. simpl.
  rewrite existsb_app, H, Bool.orb_true_r. exact IH.
Qed.

Lemma fromLast_head cl l :
  existsb (fun y => bool_decide (y = cl)) l = false -> fromLast cl (cl :: l) = cl :: l.
Proof. intros H. simpl. rewrite H, bool_decide_eq_true_2; done. Qed.

Lemma draw_clear_once c s :
  exists tail, draw c s = ClearRect 0 0 (width c) (height c) :: tail /\
  existsb (fun y => bool_decide (y = ClearRect 0 0 (width c) (height c))) tail = false.
Proof. eexists; split; [reflexivity|]. unfold draw; destruct (gameOver s); reflexivity. Qed.

Lemma visible_draw c es s :
  fromLast (ClearRect 0 0 (width c) (height c)) (paints es ++ draw c s) = draw c s.
Proof.
  destruct (draw_clear_once c s) as (tail & Hd & Ht). rewrite Hd.
  rewrite fromLast_app by (simpl; rewrite bool_decide_eq_true_2; done).
  now apply fromLast_head.
Qed.

(** *** Concrete runs of the page *)

Lemma wstepFn_star c ev w : star (wstep c) w (wstepFn c ev w).
Proof.
  destruct ev as [|k|]; simpl; [apply star_one; constructor | apply star_one; constructor |].
  destruct (pending w) as [|t rest] eqn:Hp; [apply star_refl | apply star_one].
  destruct w; simpl in *. now constructor.
Qed.

Lemma wrun_star c evs w : star (wstep c) w (wrun c evs w).
Proof.
  revert w. induction evs as [|ev evs IH]; intros w; simpl; [apply star_refl|].
  eapply star_trans; [apply wstepFn_star | apply IH].
Qed.

Lemma wrun_reachable c bg evs : worldReachable c bg (wrun c evs (worldInit c bg)).
Proof. apply wrun_star. Qed.

(** *** The pending timers *)

Lemma timersInv_reset w :
  timersInv w ->
  timersInv (fold_left applyEffect
    [SetBackground "greenYellow"; SetTimeout (mkTimer 100 "greenYellow")] w).
Proof.
  intros [Hf _]. split; simpl; [|done].
  apply Forall_app; split; [exact Hf | repeat constructor].
Qed.

Lemma timersInv_frame c w : timersInv w -> timersInv (
  fold_left applyEffect (snd (gameLoop c (game w)))
    (mkWorld (fst (gameLoop c (game w))) (background w) (pending w))).
Proof.
  intros Hi. rewrite gameLoop_snd, fold_applyEffect_app, fold_applyEffect_paints.
  destruct (gameOver (game w)) eqn:Ho;
    [rewrite update_frozen_1p by done; exact Hi|].
  rewrite update_snd, fold_applyEffect_app by done.
  destruct (checkGameOver_effects c (fst (checkScoring c (computerMove c (bounced c (game w))))))
    as [l ->].
  rewrite fold_applyEffect_paints.
  destruct (checkScoring_effects c (computerMove c (bounced c (game w)))) as [-> | ->];
    [exact Hi | apply timersInv_reset, Hi].
Qed.

Lemma worldReachable_timersInv c bg w : worldReachable c bg w -> timersInv w.
Proof.
  intros Hr. eapply star_invariant; [| exact Hr | split; [constructor | done]].
  clear Hr w. intros a b Ha Hs. destruct Hs as [w|k w|w t rest Hp].
  - apply timersInv_frame, Ha.
  - exact Ha.
  - destruct Ha as [Hf Hb]. rewrite Hp in Hf, Hb. inversion Hf; subst.
    split; simpl; [assumption | auto].
Qed.

(** ** The physics shared with [game.js] *)

Lemma toTwo_bounced c s : toTwo (bounced c s) = TwoPlayer.bounced c (toTwo s).
Proof. rewrite bounced_fields_1p, TwoPlayer.bounced_fields. reflexivity. Qed.

Lemma update_agrees_aux c s :
  toTwo (fst (update c s)) =
  TwoPlayer.setRightPaddleY (rightPaddleY (fst (update c s)))
    (TwoPlayer.update c (toTwo s)).
Proof.
  destruct (gameOver s) eqn:Ho.
  { rewrite update_frozen_1p, TwoPlayer.update_frozen by done. now destruct s. }
  rewrite update_fst, TwoPlayer.update_running by done.
  rewrite <- toTwo_bounced, computerMove_nf.
  set (b := bounced c s).
  destruct (exitsLeft b) eqn:El; [|destruct (exitsRight c b) eqn:Er].
  - rewrite checkScoring_left_1p, TwoPlayer.checkScoring_left by exact El.
    rewrite checkGameOver_fst, TwoPlayer.checkGameOver_nf. reflexivity.
  - rewrite checkScoring_right_1p, TwoPlayer.checkScoring_right by assumption.
    rewrite checkGameOver_fst, TwoPlayer.checkGameOver_nf. reflexivity.
  - rewrite checkScoring_stay_1p, TwoPlayer.checkScoring_stay by assumption.
    rewrite checkGameOver_fst, TwoPlayer.checkGameOver_nf. reflexivity.
Qed.

Lemma update_agrees_frame c s :
  toTwo (pg_frame c s) =
  TwoPlayer.setRightPaddleY (rightPaddleY (pg_frame c s))
    (TwoPlayer.update c (toTwo s)).
Proof. simpl. rewrite gameLoop_fst. apply update_agrees_aux. Qed.

(** Every frame of [oneplayer.js] is a step of the score machine. *)
Lemma update_refines_1p c s : frame_step (absOf s) (absOf (fst (update c s))).
Proof.
  change (frame_step (TwoPlayer.absOf (toTwo s)) (TwoPlayer.absOf (toTwo (fst (update c s))))).
  rewrite update_agrees_aux. apply TwoPlayer.update_refines.
Qed.

Lemma reachable_absInv1 c s : reachable c s -> abs_inv (absOf s).
Proof.
  intros Hr. apply (@reachable_abs_inv_of state onePlayerGame c); [reflexivity | | apply onKeyDown_absOf_1p | exact Hr].
  intros s'. simpl. rewrite gameLoop_fst. apply update_refines_1p.
Qed.

Lemma computerTarget_inv c s :
  TwoPlayer.paddleInv c (rightPaddleY s) ->
  TwoPlayer.paddleInv c (computerTarget c s).
Proof.
  unfold computerTarget, TwoPlayer.paddleInv.
  consts; TwoPlayer.consts. repeat case_if; lia.
Qed.

Lemma toTwo_player1Up k s :
  toTwo (player1Up k s) = TwoPlayer.player1Up k (toTwo s).
Proof.
  unfold player1Up, TwoPlayer.player1Up; consts; TwoPlayer.consts.
  simpl. destruct (_ && _); reflexivity.
Qed.

Lemma toTwo_player1Down c k s :
  toTwo (player1Down c k s) = TwoPlayer.player1Down c k (toTwo s).
Proof.
  unfold player1Down, TwoPlayer.player1Down; consts; TwoPlayer.consts.
  simpl. destruct (_ && _); reflexivity.
Qed.

Lemma toTwo_onKeyDown c k s :
  gameOver s = false ->
  toTwo (onKeyDown c k s) =
  TwoPlayer.player1Down c k (TwoPlayer.player1Up k (toTwo s)).
Proof.
  unfold onKeyDown; intros ->. now rewrite toTwo_player1Down, toTwo_player1Up.
Qed.

Section Transfer.
Variable c : HTMLCanvas.
Hypothesis Hfits : TwoPlayer.fits c.

Lemma frame_rightPaddle_inv s :
  TwoPlayer.frameInv c (toTwo s) ->
  TwoPlayer.paddleInv c (rightPaddleY (pg_frame c s)).
Proof.
  intros Hi. destruct Hi as [(_ & _ & _ & Hr) _]. simpl. rewrite gameLoop_fst.
  destruct (gameOver s) eqn:Ho;
    [rewrite update_frozen_1p by done; exact Hr|].
  rewrite update_rightPaddleY by done. case_if.
  - apply (TwoPlayer.centerPaddleY_inv c Hfits).
  - apply computerTarget_inv. rewrite bounced_fields_1p. exact Hr.
Qed.

(** Every reachable one-player state satisfies the frame invariant of the
    two-player game: the ball and both paddles stay where [TwoPlayer]
    keeps them. *)
Lemma reachable_frameInv1 s : reachable c s -> TwoPlayer.frameInv c (toTwo s).
Proof.
  revert s. apply (reachable_ind c).
  - apply (TwoPlayer.init_inv c Hfits).
  - intros s Hi. rewrite update_agrees_frame.
    apply TwoPlayer.frameInv_setRightPaddleY;
      [apply (TwoPlayer.update_inv c Hfits), Hi | apply frame_rightPaddle_inv, Hi].
  - intros k s Hi. simpl. destruct (gameOver s) eqn:Ho;
      [rewrite onKeyDown_frozen_1p by done; exact Hi|].
    rewrite toTwo_onKeyDown by done. apply TwoPlayer.player1_blocks_inv, Hi.
Qed.
End Transfer.

Section AlignedTransfer.
Variable c : HTMLCanvas.
Hypothesis Hfits : TwoPlayer.fits c.
Hypothesis Haligned : TwoPlayer.centerPaddleY c mod paddleSpeed = 0.

(** [computerMove] keeps a paddle on the grid of [paddleSpeed] steps
    inside the field: it steps down only from below the lowest grid
    position, up only from above the top. *)
Lemma computerTarget_aligned s :
  TwoPlayer.alignedInv c (rightPaddleY s) -> TwoPlayer.alignedInv c (computerTarget c s).
Proof.
  pose proof (height_half c) as Hh. revert Haligned.
  unfold computerTarget, TwoPlayer.alignedInv, TwoPlayer.centerPaddleY.
  consts; TwoPlayer.consts. intros Ha. repeat case_if; zlia.
Qed.

Lemma frame_aligned s :
  TwoPlayer.paddlesP (TwoPlayer.alignedInv c) (toTwo s) ->
  TwoPlayer.paddlesP (TwoPlayer.alignedInv c) (toTwo (pg_frame c s)).
Proof.
  intros Hp. pose proof (TwoPlayer.alignedInv_update c Hfits Haligned _ Hp) as [Hl _].
  destruct Hp as [_ Hr]. rewrite update_agrees_frame. split; [exact Hl|]. simpl.
  rewrite gameLoop_fst. destruct (gameOver s) eqn:Ho;
    [rewrite update_frozen_1p by done; exact Hr|].
  rewrite update_rightPaddleY by done. case_if.
  - apply (TwoPlayer.alignedInv_center c Hfits Haligned).
  - apply computerTarget_aligned. rewrite bounced_fields_1p. exact Hr.
Qed.

Lemma reachable_aligned1 s :
  reachable c s -> TwoPlayer.paddlesP (TwoPlayer.alignedInv c) (toTwo s).
Proof.
  revert s. apply (reachable_ind c).
  - pose proof (TwoPlayer.alignedInv_center c Hfits Haligned). split; assumption.
  - apply frame_aligned.
  - intros k s Hp. simpl. destruct (gameOver s) eqn:Ho;
      [rewrite onKeyDown_frozen_1p by done; exact Hp|].
    rewrite toTwo_onKeyDown by done.
    do 2 (apply (TwoPlayer.key_block_paddles c _ (TwoPlayer.alignedInv_up c)
                   (TwoPlayer.alignedInv_down c Haligned) k); [tauto|]).
    exact Hp.
Qed.
End AlignedTransfer.

(** ** Properties of [oneplayer.js] *)

(** C24: the computer's policy: in a running frame where the ball stays
    in the field, the right paddle moves down one [paddleSpeed] step when
    its centre is above the moved ball and it is above its lowest
    position, else up one step when its centre is below the ball and it
    is below the top, else stays. *)
Theorem computer_chases c (s : state) :
  gameOver s = false ->
  0 <= ballX s + ballSpeedX s - ballSize / 2 ->
  ballX s + ballSpeedX s + ballSize / 2 <= width c ->
  let y := ballY s + ballSpeedY s in
  let r := rightPaddleY s in
  rightPaddleY (fst (update c s)) =
  if (r + paddleHeight / 2 <? y) && (r <? height c - paddleHeight) then r + paddleSpeed
  else if (r + paddleHeight / 2 >? y) && (r >? 0) then r - paddleSpeed
  else r.
Proof.
  intros Ho Hl Hr; cbv zeta. rewrite update_rightPaddleY by done.
  unfold exitsLeft, exitsRight. rewrite bounced_fields_1p. simpl.
  replace (ballX s + ballSpeedX s - ballSize / 2 <? 0) with false
    by (symmetry; apply Z.ltb_ge; exact Hl).
  replace (ballX s + ballSpeedX s + ballSize / 2 >? width c) with false
    by (symmetry; apply Z_gtb_ge; exact Hr).
  reflexivity.
Qed.

Lemma computer_chases_witness :
  gameOver (init canvas800x400) = false /\
  0 <= ballX (init canvas800x400) + ballSpeedX (init canvas800x400) - ballSize / 2 /\
  ballX (init canvas800x400) + ballSpeedX (init canvas800x400) + ballSize / 2
    <= width canvas800x400 /\
  rightPaddleY (fst (update canvas800x400 (init canvas800x400))) = 180.
Proof.
  refine (conj eq_refl (conj _ (conj _ _))); [vm_compute; discriminate .. |].
  rewrite (computer_chases canvas800x400 (init canvas800x400) eq_refl);
    [reflexivity | vm_compute; discriminate | vm_compute; discriminate].
Defined.

(** C25: the timer that [resetGame] schedules is dead code: in every
    reachable state of the page, the colour a pending timer would write is
    the background colour already set, so firing it changes nothing. *)
Theorem timer_fire_noop c bg w t rest :
  worldReachable c bg w -> pending w = t :: rest ->
  callbackColor t = background w.
Proof.
  intros Hr Hp. destruct (worldReachable_timersInv c bg w Hr) as [Hf Hb].
  rewrite Hp in Hf, Hb. inversion Hf as [|? ? Ht]; subst.
  rewrite Ht. symmetry. apply Hb. discriminate.
Qed.

Lemma timer_fire_noop_witness :
  worldReachable canvas800x400 "black"
    (wrun canvas800x400 (repeat WFrame (8 * 109)) (worldInit canvas800x400 "black")) /\
  pending (wrun canvas800x400 (repeat WFrame (8 * 109)) (worldInit canvas800x400 "black"))
    = [mkTimer 100 "greenYellow"] /\
  callbackColor (mkTimer 100 "greenYellow") =
  background (wrun canvas800x400 (repeat WFrame (8 * 109)) (worldInit canvas800x400 "black")).
Proof.
  pose proof (wrun_reachable canvas800x400 "black" (repeat WFrame (8 * 109))) as Hr.
  assert (Hp : pending (wrun canvas800x400 (repeat WFrame (8 * 109))
                          (worldInit canvas800x400 "black")) = [mkTimer 100 "greenYellow"])
    by (vm_compute; reflexivity).
  split; [exact Hr | split; [exact Hp | exact (timer_fire_noop _ _ _ _ _ Hr Hp)]].
Defined.

(** C26: whatever a frame paints (including the final screen [update]
    draws itself on the game-over frame), what is on screen when
    [gameLoop] returns is exactly [draw] of the new state: the last full
    clear of the canvas starts the loop's own [draw]. *)
Theorem gameLoop_visible c (s : state) :
  visibleFrame c (snd (gameLoop c s)) = draw c (fst (gameLoop c s)).
Proof.
  unfold visibleFrame. rewrite gameLoop_snd, gameLoop_fst, paints_app, paints_map.
  apply visible_draw.
Qed.

(** C27: on the frame that sets [gameOver], the page receives the final
    screen three times: [draw] and [drawGameOver] from inside [update],
    then the loop's [draw] (which shows the message again). *)
Theorem gameOver_frame_paints c (s : state) :
  gameOver s = false -> gameOver (fst (gameLoop c s)) = true ->
  paints (snd (gameLoop c s)) =
  draw c (fst (gameLoop c s))
  ++ drawGameOver c (gameOverMessage (fst (gameLoop c s)))
  ++ draw c (fst (gameLoop c s)).
Proof.
  intros Ho Hn. rewrite gameLoop_fst in Hn |- *.
  rewrite gameLoop_snd, paints_app, paints_map, update_snd, paints_app by done.
  set (x := fst (checkScoring c (computerMove c (bounced c s)))).
  assert (Hx : gameOver x = false)
    by (unfold x; rewrite checkScoring_gameOver, computerMove_nf; simpl;
        unfold bounced; rewrite paddleBounce_nf_1p, wallBounce_nf_1p; exact Ho).
  rewrite update_fst in Hn |- * by done. fold x in Hn |- *.
  rewrite (checkGameOver_latched c x Hx Hn). cbn [fst snd]. rewrite paints_map.
  destruct (checkScoring_effects c (computerMove c (bounced c s))) as [He | He];
    rewrite He; cbn [paints app]; now rewrite <- app_assoc.
Qed.

Lemma gameOver_frame_paints_witness :
  gameOver (mkState 170 170 3 200 (-5) 5 0 4 false) = false /\
  gameOver (fst (gameLoop canvas800x400 (mkState 170 170 3 200 (-5) 5 0 4 false))) = true /\
  length (paints (snd (gameLoop canvas800x400 (mkState 170 170 3 200 (-5) 5 0 4 false))))
    = (2 * length (draw canvas800x400 (fst (gameLoop canvas800x400
                     (mkState 170 170 3 200 (-5) 5 0 4 false)))) + 6)%nat.
Proof.
  assert (Hn : gameOver (fst (gameLoop canvas800x400 (mkState 170 170 3 200 (-5) 5 0 4 false)))
               = true) by (vm_compute; reflexivity).
  split; [reflexivity | split; [exact Hn|]].
  rewrite (gameOver_frame_paints canvas800x400 (mkState 170 170 3 200 (-5) 5 0 4 false) eq_refl Hn).
  vm_compute. reflexivity.
Defined.



(** C21: the final screen of [oneplayer.js] names the right winner: in a
    reachable state with [gameOver] set, the message is ["You Won!"]
    exactly when the player has [maxScore] points and ["You Lost, Try
    Again"] exactly when the computer has them. *)
Theorem one_player_final_message c (s : state) :
  reachable c s -> gameOver s = true ->
  (gameOverMessage s = "You Won!" <-> player1Score s = maxScore) /\
  (gameOverMessage s = "You Lost, Try Again" <->
   computerScore s = maxScore).
Proof.
  intros Hr Ho. destruct (reachable_absInv1 c s Hr) as (_ & _ & Hiff & Hnot).
  simpl in Hiff, Hnot. rewrite Ho in Hiff.
  unfold gameOverMessage. case_if; split; split; intros H;
    solve [discriminate | tauto | reflexivity].
Qed.

Lemma one_player_final_message_witness :
  reachable canvas800x400
    (run canvas800x400 (repeat Frame (40 * 109)) (init canvas800x400)) /\
  gameOver
    (run canvas800x400 (repeat Frame (40 * 109)) (init canvas800x400)) = true /\
  (gameOverMessage
     (run canvas800x400 (repeat Frame (40 * 109)) (init canvas800x400))
     = "You Won!" <->
   player1Score
     (run canvas800x400 (repeat Frame (40 * 109)) (init canvas800x400))
     = maxScore) /\
  (gameOverMessage
     (run canvas800x400 (repeat Frame (40 * 109)) (init canvas800x400))
     = "You Lost, Try Again" <->
   computerScore
     (run canvas800x400 (repeat Frame (40 * 109)) (init canvas800x400))
     = maxScore).
Proof.
  pose proof (reachable_run (S:=state) canvas800x400 (repeat Frame (40 * 109)))
    as Hr.
  assert (Ho : gameOver
    (run canvas800x400 (repeat Frame (40 * 109)) (init canvas800x400)) = true)
    by (vm_compute; reflexivity).
  split; [exact Hr | split; [exact Ho | exact (one_player_final_message _ _ Hr Ho)]].
Defined.

(** C22: on a canvas that holds a paddle and a ball, the ball of every
    reachable state of [oneplayer.js] is inside the field as in [game.js],
    and both velocity components keep magnitude 5. *)
Theorem one_player_ball_in_field c (s : state) :
  TwoPlayer.fits c -> reachable c s ->
  0 <= ballY s <= height c /\
  ballSize / 2 <= ballX s <= width c - ballSize / 2 /\
  Z.abs (ballSpeedX s) = 5 /\ Z.abs (ballSpeedY s) = 5.
Proof.
  intros Hf Hr. destruct (reachable_frameInv1 c Hf s Hr) as [([Hvx Hvy] & Hy & _) Hx].
  destruct Hy as [Hy _]. unfold TwoPlayer.ballXInv in Hx. simpl in *. tauto.
Qed.

Lemma one_player_ball_in_field_witness :
  TwoPlayer.fits canvas800x400 /\
  reachable canvas800x400 (run canvas800x400 [Frame; Frame] (init canvas800x400)) /\
  0 <= ballY (run canvas800x400 [Frame; Frame] (init canvas800x400))
    <= height canvas800x400 /\
  ballSize / 2 <= ballX (run canvas800x400 [Frame; Frame] (init canvas800x400))
    <= width canvas800x400 - ballSize / 2 /\
  Z.abs (ballSpeedX (run canvas800x400 [Frame; Frame] (init canvas800x400))) = 5 /\
  Z.abs (ballSpeedY (run canvas800x400 [Frame; Frame] (init canvas800x400))) = 5.
Proof.
  pose proof TwoPlayer.fits_800x400 as Hf.
  pose proof (reachable_run (S:=state) canvas800x400 [Frame; Frame]) as Hr.
  split; [exact Hf | split; [exact Hr | exact (one_player_ball_in_field _ _ Hf Hr)]].
Defined.

(** C23: the computer's paddle stays within less than one [paddleSpeed]
    step outside the field in every reachable state: [computerMove]
    checks the bound before each step, like the listener. *)
Theorem computer_paddle_bounded c (s : state) :
  TwoPlayer.fits c -> reachable c s ->
  - paddleSpeed < rightPaddleY s
    < height c - paddleHeight + paddleSpeed.
Proof.
  intros Hf Hr. destruct (reachable_frameInv1 c Hf s Hr) as [(_ & _ & _ & Hp) _].
  exact Hp.
Qed.

Lemma computer_paddle_bounded_witness :
  TwoPlayer.fits canvas300x150 /\
  reachable canvas300x150 (run canvas300x150 (repeat Frame 30) (init canvas300x150)) /\
  - paddleSpeed
    < rightPaddleY (run canvas300x150 (repeat Frame 30) (init canvas300x150))
    < height canvas300x150 - paddleHeight + paddleSpeed.
Proof.
  pose proof TwoPlayer.fits_300x150 as Hf.
  pose proof (reachable_run (S:=state) canvas300x150 (repeat Frame 30)) as Hr.
  split; [exact Hf | split; [exact Hr | exact (computer_paddle_bounded _ _ Hf Hr)]].
Defined.

(** C30: after every frame, the score labels on screen read back as the
    scores: on the frame [gameLoop] leaves visible, the number after
    ["Player: "] is [player1Score] and the number after ["Computer: "] is
    [computerScore] of the new state. *)
Theorem visible_score_labels c (s : state) :
  let s' := fst (gameLoop c s) in
  let screen := visibleFrame c (snd (gameLoop c s)) in
  readLabel "Player: " screen = Some (player1Score s') /\
  readLabel "Computer: " screen = Some (computerScore s').
Proof.
  cbv zeta. unfold visibleFrame.
  rewrite gameLoop_snd, gameLoop_fst, paints_app, paints_map, visible_draw.
  unfold draw, clearCanvas, drawRect, drawBall, drawScores. cbn [app readLabel].
  rewrite stripPrefix_app, parseNumber_numberToString. split; [reflexivity|].
  simpl stripPrefix. cbn [readLabel]. exact (parseNumber_numberToString _).
Qed.

(** C34: when the centred paddle position is a multiple of [paddleSpeed]
    (as on the spec's 800 by 400 canvas), both paddles of [oneplayer.js]
    stay exactly within [0 .. height - paddleHeight] in every reachable
    state: the player's paddle by the listener's guards, the computer's
    by the guards of its policy. *)
Theorem one_player_paddles_clamped c (s : state) :
  TwoPlayer.fits c -> TwoPlayer.centerPaddleY c mod paddleSpeed = 0 -> reachable c s ->
  0 <= leftPaddleY s <= height c - paddleHeight /\
  0 <= rightPaddleY s <= height c - paddleHeight.
Proof.
  intros Hf Ha Hr. destruct (reachable_aligned1 c Hf Ha s Hr) as [[Hl _] [Hr' _]].
  split; assumption.
Qed.

Lemma one_player_paddles_clamped_witness :
  let s := run canvas800x400 (repeat (KeyDown "ArrowDown") 20 ++ repeat Frame 50)
             (init canvas800x400) in
  TwoPlayer.fits canvas800x400 /\ TwoPlayer.centerPaddleY canvas800x400 mod paddleSpeed = 0 /\
  reachable canvas800x400 s /\
  0 <= leftPaddleY s <= height canvas800x400 - paddleHeight /\
  0 <= rightPaddleY s <= height canvas800x400 - paddleHeight.
Proof.
  cbv zeta. pose proof TwoPlayer.fits_800x400 as Hf.
  assert (Ha : TwoPlayer.centerPaddleY canvas800x400 mod paddleSpeed = 0) by reflexivity.
  pose proof (reachable_run (S:=state) canvas800x400
    (repeat (KeyDown "ArrowDown") 20 ++ repeat Frame 50)) as Hr.
  split; [exact Hf | split; [exact Ha | split; [exact Hr |]]].
  exact (one_player_paddles_clamped _ _ Hf Ha Hr).
Defined.

(** C18: in every reachable state of [oneplayer.js] both scores are in
    [0 .. maxScore], [gameOver] is set exactly when the player or the
    computer has [maxScore] points, and the two never both have them. *)
Theorem one_player_reachable_scores c (s : state) :
  reachable c s ->
  0 <= player1Score s <= maxScore /\ 0 <= computerScore s <= maxScore /\
  (gameOver s = true <-> player1Score s = maxScore \/ computerScore s = maxScore) /\
  ~ (player1Score s = maxScore /\ computerScore s = maxScore).
Proof. exact (reachable_absInv1 c s). Qed.

Lemma one_player_reachable_scores_witness :
  let s := run canvas800x400 (repeat Frame 30) (init canvas800x400) in
  reachable canvas800x400 s /\
  0 <= player1Score s <= maxScore /\ 0 <= computerScore s <= maxScore /\
  (gameOver s = true <-> player1Score s = maxScore \/ computerScore s = maxScore) /\
  ~ (player1Score s = maxScore /\ computerScore s = maxScore).
Proof.
  cbv zeta. pose proof (reachable_run (S:=state) canvas800x400 (repeat Frame 30)) as Hr.
  split; [exact Hr | exact (one_player_reachable_scores _ _ Hr)].
Defined.

(** C19: refinement: every frame of [oneplayer.js] is one step of the
    abstract score machine [ScoreSpec.frame_step] (no point, or one
    point to the player or the computer, then the latch), and every key
    event leaves the scores and the latch unchanged. *)
Theorem one_player_frame_refines c k (s : state) :
  frame_step (absOf s) (absOf (fst (update c s))) /\ absOf (onKeyDown c k s) = absOf s.
Proof.
  split; [apply update_refines_1p | apply onKeyDown_absOf_1p].
Qed.

(** C20: the listener of a running one-player game: [ArrowUp] and
    [ArrowDown] move the player's paddle by [paddleSpeed] when it is not
    yet at (or past) the bound it moves towards, and every other key,
    [w] and [s] included, is ignored: the computer's paddle never answers
    the keyboard. *)
Theorem one_player_keys c (s : state) :
  gameOver s = false ->
  onKeyDown c "ArrowUp" s =
    (if leftPaddleY s >? 0 then setLeftPaddleY (leftPaddleY s - paddleSpeed) s else s) /\
  onKeyDown c "ArrowDown" s =
    (if leftPaddleY s <? height c - paddleHeight
     then setLeftPaddleY (leftPaddleY s + paddleSpeed) s else s) /\
  (forall k, k <> "ArrowUp" -> k <> "ArrowDown" -> onKeyDown c k s = s).
Proof.
  intros Ho. unfold onKeyDown, player1Down, player1Up.
  rewrite Ho. repeat split; simpl; try (case_if; reflexivity).
  intros k H1 H2. apply String.eqb_neq in H1, H2. now rewrite H1, H2.
Qed.

Lemma one_player_keys_witness :
  let s := setLeftPaddleY 0 (init canvas800x400) in
  gameOver s = false /\
  onKeyDown canvas800x400 "ArrowUp" s = s /\
  onKeyDown canvas800x400 "ArrowDown" s = setLeftPaddleY paddleSpeed s /\
  onKeyDown canvas800x400 "w" s = s.
Proof.
  cbv zeta. split; [reflexivity|].
  destruct (one_player_keys canvas800x400 (setLeftPaddleY 0 (init canvas800x400)) eq_refl)
    as (Hu & Hd & Ho).
  split; [rewrite Hu; reflexivity|]. split; [rewrite Hd; reflexivity|].
  apply Ho; discriminate.
Defined.

(** [oneplayer.js] meets the contract of [ScoreSpec]. *)
#[global] Instance onePlayerLaws : PongLaws state.
Proof.
  split; intros c.
  - reflexivity.
  - intros s. simpl. rewrite gameLoop_fst. apply update_refines_1p.
  - apply onKeyDown_absOf_1p.
  - intros s Ho. simpl. rewrite gameLoop_fst, update_frozen_1p by done.
    reflexivity.
  - intros k s Ho. now apply onKeyDown_frozen_1p.
Qed.

End OnePlayer.
