(* ===== verification/Loop.v ===== *)
(** * The loop driver and the browser's animation-frame queue

    Both source files end the same way (game.js lines 153-161,
    oneplayer.js lines 169-176):
<<
    function gameLoop() { update(); draw(); requestAnimationFrame(gameLoop); }
    gameLoop();
>>
    The page is modelled as the game's state, the canvas calls (or page
    effects) issued so far, and the number of [gameLoop] callbacks
    registered with [requestAnimationFrame] and not yet run. A display
    refresh runs the callbacks registered before it (those registered
    while it runs wait for the next refresh, as the HTML event loop
    specifies); a [keydown] event runs the listener. The class [GameLoop]
    is what the driver needs of a game: the body [update(); draw()] of
    [gameLoop], whose state part is the frame of [PongGame].

    The theorems: exactly one callback is pending on every page the
    browser can reach, so each refresh runs exactly one frame; the page's
    game state is the event semantics [ScoreSpec.run] of the translated
    events, from the state the load-time frame leaves; after game over the loop keeps running and redraws the same
    frozen frame on every refresh. *)

From Stdlib Require Import ZArith Lia String List.
From stdpp Require Import base decidable numbers strings.
From S2P Require Import Prelude Canvas ScoreSpec TwoPlayer OnePlayer.
Import ListNotations ScoreSpec.
Open Scope Z_scope.

(** What the loop driver needs of a game: the body [update(); draw()] of
    [gameLoop], returning the new state and what it issued, whose state
    part is the game's frame. *)
Class GameLoop (S O : Type) `{PongGame S} := {
  gl_body : HTMLCanvas -> S -> S * list O;
  gl_body_frame c s : fst (gl_body c s) = pg_frame c s
}.

#[global] Instance twoPlayerLoop : GameLoop TwoPlayer.state cmd := {|
  gl_body := TwoPlayer.gameLoop;
  gl_body_frame c s := eq_refl
|}.

#[global] Instance onePlayerLoop : GameLoop OnePlayer.state OnePlayer.effect := {|
  gl_body := OnePlayer.gameLoop;
  gl_body_frame c s := eq_refl
|}.

Module Loop.

(** What the browser delivers: a display refresh, or a key press. *)
Inductive bevent := Refresh | Key (key : string).

Section Page.
Context {G Out : Type} `{GameLoop G Out}.
Variable c : HTMLCanvas.

Record page := mkPage {
  game : G;
  output : list Out;
  callbacks : nat   (** [gameLoop] callbacks waiting for a refresh *)
}.

(** [function gameLoop() { update(); draw(); requestAnimationFrame(gameLoop); }] *)
Definition gameLoop (p : page) : page :=
  let '(s, o) := gl_body c (game p) in mkPage s (output p ++ o) (S (callbacks p)).

(** The script's last line, [gameLoop();], run when the page loads. *)
Definition load : page := gameLoop (mkPage (pg_init c) [] 0).

Fixpoint runCallbacks (n : nat) (p : page) : page :=
  match n with
  | O => p
  | S n => runCallbacks n (gameLoop p)
  end.

(** A refresh takes the list of registered callbacks and runs them; the
    callbacks they register are kept for the next refresh. *)
Definition refresh (p : page) : page :=
  runCallbacks (callbacks p) (mkPage (game p) (output p) 0).

(** The [keydown] listener. *)
Definition keydown (k : string) (p : page) : page :=
  mkPage (pg_key c k (game p)) (output p) (callbacks p).

Definition dispatch (ev : bevent) (p : page) : page :=
  match ev with
  | Refresh => refresh p
  | Key k => keydown k p
  end.

Fixpoint pageRun (evs : list bevent) (p : page) : page :=
  match evs with
  | [] => p
  | ev :: rest => pageRun rest (dispatch ev p)
  end.

Inductive pstep : page -> page -> Prop :=
| pstep_event ev p : pstep p (dispatch ev p).

Definition pageReachable (p : page) : Prop := star pstep load p.

(** The events of [ScoreSpec.run] a browser event amounts to. *)
Definition toEvent (ev : bevent) : event :=
  match ev with
  | Refresh => Frame
  | Key k => KeyDown k
  end.

End Page.

Arguments page G Out : clear implicits.

(** ** One frame per refresh *)

Section Frames.
Context {G Out : Type} `{GameLoop G Out}.
Variable c : HTMLCanvas.

Lemma gameLoop_fields (p : page G Out) :
  gameLoop c p =
  mkPage (pg_frame c (game p)) (output p ++ snd (gl_body c (game p))) (S (callbacks p)).
Proof. unfold gameLoop. rewrite <- gl_body_frame. now destruct (gl_body c (game p)). Qed.

(** With one callback registered, a refresh is one run of [gameLoop],
    which registers the next one. *)
Lemma refresh_one (p : page G Out) :
  callbacks p = 1%nat ->
  refresh c p = mkPage (pg_frame c (game p)) (output p ++ snd (gl_body c (game p))) 1.
Proof. intros Hc. unfold refresh. rewrite Hc. cbn [runCallbacks]. apply gameLoop_fields. Qed.

Lemma dispatch_one ev (p : page G Out) :
  callbacks p = 1%nat ->
  callbacks (dispatch c ev p) = 1%nat /\ game (dispatch c ev p) = handle c (toEvent ev) (game p).
Proof. intros Hc. destruct ev; simpl; [rewrite refresh_one by exact Hc|]; auto. Qed.

Lemma pageRun_one evs (p : page G Out) :
  callbacks p = 1%nat ->
  callbacks (pageRun c evs p) = 1%nat /\
  game (pageRun c evs p) = run c (map toEvent evs) (game p).
Proof.
  revert p; induction evs as [|ev evs IH]; intros p Hc; simpl; [auto|].
  destruct (dispatch_one ev p Hc) as [Hc' Hg]. rewrite <- Hg. now apply IH.
Qed.

Lemma load_fields :
  load c = mkPage (pg_frame c (pg_init c)) (snd (gl_body c (pg_init c))) 1 (G:=G) (Out:=Out).
Proof. unfold load. now rewrite gameLoop_fields. Qed.

Lemma pageRun_app evs1 evs2 (p : page G Out) :
  pageRun c (evs1 ++ evs2) p = pageRun c evs2 (pageRun c evs1 p).
Proof. revert p; induction evs1; simpl; auto. Qed.

Lemma pageReachable_run evs : pageReachable c (pageRun c evs (load c) : page G Out).
Proof.
  unfold pageReachable. generalize (load c : page G Out).
  induction evs as [|ev evs IH]; intros p; simpl; [constructor|].
  econstructor; [constructor | apply IH].
Qed.

Lemma pageReachable_pageRun (p : page G Out) :
  pageReachable c p -> exists evs, p = pageRun c evs (load c).
Proof.
  intros Hr.
  refine (star_invariant _ (fun q => exists evs, q = pageRun c evs (load c)) _ (load c) p Hr _);
    [| now exists []].
  intros a b [evs ->] Hs. inversion Hs as [ev q Hq Hb]; subst.
  exists (evs ++ [ev]). now rewrite pageRun_app.
Qed.

Lemma load_callbacks : callbacks (load c : page G Out) = 1%nat.
Proof. now rewrite load_fields. Qed.
End Frames.

(** ** The loop after game over *)

Section Frozen.
Context {G Out : Type} `{PongLaws G} `{!GameLoop G Out}.
Variable c : HTMLCanvas.

(** Once the game is over, every refresh leaves the state alone and
    issues the output of the frozen frame again. *)
Lemma refresh_frozen n (p : page G Out) :
  over (pg_abs (game p)) = true -> callbacks p = 1%nat ->
  pageRun c (repeat Refresh n) p =
  mkPage (game p) (output p ++ List.concat (repeat (snd (gl_body c (game p))) n)) 1.
Proof.
  revert p; induction n as [|n IH]; intros [s o k] Ho Hc; simpl in *.
  - subst k. now rewrite app_nil_r.
  - rewrite refresh_one by exact Hc. simpl. rewrite law_frozen_frame by exact Ho.
    rewrite IH by auto. simpl. now rewrite app_assoc.
Qed.
End Frozen.

(** ** Properties of the page *)

(** C31: the loop never stops and never doubles: on every page the
    browser can reach, exactly one [gameLoop] callback is registered with
    [requestAnimationFrame], so each display refresh runs exactly one
    frame ([update] then [draw]). *)
Theorem page_one_callback {G Out : Type} `{GameLoop G Out} c (p : page G Out) :
  pageReachable c p -> callbacks p = 1%nat.
Proof.
  intros Hr. destruct (pageReachable_pageRun c p Hr) as [evs ->].
  apply pageRun_one, load_callbacks.
Qed.

Lemma page_one_callback_witness :
  pageReachable canvas800x400
    (pageRun canvas800x400 [Refresh; Key "w"; Refresh] (load canvas800x400)
      : page TwoPlayer.state cmd) /\
  callbacks (pageRun canvas800x400 [Refresh; Key "w"; Refresh] (load canvas800x400)
      : page TwoPlayer.state cmd) = 1%nat.
Proof.
  pose proof (pageReachable_run (G:=TwoPlayer.state) (Out:=cmd) canvas800x400
    [Refresh; Key "w"; Refresh]) as Hr.
  split; [exact Hr | exact (page_one_callback canvas800x400 _ Hr)].
Defined.

(** C32: refinement of the event semantics: after the page has loaded
    (which runs one frame) and received the browser events [evs], the
    game's state is [ScoreSpec.run] of the corresponding frames and key
    events; a refresh is one [Frame], a key press one [KeyDown]. *)
Theorem page_refines_run {G Out : Type} `{GameLoop G Out} c evs :
  game (pageRun c evs (load c) : page G Out) =
  run c (map toEvent evs) (pg_frame c (pg_init c)).
Proof.
  pose proof (pageRun_one c evs (load c) (load_callbacks c)) as [_ Hg].
  rewrite Hg, load_fields. reflexivity.
Qed.

(** C33: after game over the loop of [game.js] keeps running: each of
    the next [n] refreshes leaves the state alone and draws the same
    frozen frame, [draw] of the final state, with its game-over message. *)
Theorem frozen_page_redraws c n (p : page TwoPlayer.state cmd) :
  pageReachable c p -> TwoPlayer.gameOver (game p) = true ->
  pageRun c (repeat Refresh n) p =
  mkPage (game p) (output p ++ List.concat (repeat (TwoPlayer.draw c (game p)) n)) 1.
Proof.
  intros Hr Ho. destruct (pageReachable_pageRun c p Hr) as [evs Hp].
  assert (Hc : callbacks p = 1%nat) by (subst p; apply pageRun_one, load_callbacks).
  rewrite refresh_frozen by assumption. cbn [gl_body twoPlayerLoop TwoPlayer.gameLoop snd].
  now rewrite TwoPlayer.update_frozen by exact Ho.
Qed.

Lemma frozen_page_redraws_witness :
  let evs := List.concat (repeat (repeat (Key "ArrowUp") 17 ++ repeat Refresh 236) 5) in
  let p := pageRun canvas800x400 evs (load canvas800x400) : page TwoPlayer.state cmd in
  pageReachable canvas800x400 p /\ TwoPlayer.gameOver (game p) = true /\
  pageRun canvas800x400 (repeat Refresh 2) p =
  mkPage (game p) (output p ++ List.concat (repeat (TwoPlayer.draw canvas800x400 (game p)) 2)) 1.
Proof.
  cbv zeta.
  pose proof (pageReachable_run (G:=TwoPlayer.state) (Out:=cmd) canvas800x400
    (List.concat (repeat (repeat (Key "ArrowUp") 17 ++ repeat Refresh 236) 5))) as Hr.
  assert (Ho : TwoPlayer.gameOver (game (pageRun canvas800x400
    (List.concat (repeat (repeat (Key "ArrowUp") 17 ++ repeat Refresh 236) 5))
    (load canvas800x400) : page TwoPlayer.state cmd)) = true) by (vm_compute; reflexivity).
  split; [exact Hr | split; [exact Ho | exact (frozen_page_redraws _ 2 _ Hr Ho)]].
Defined.

End Loop.
