(* ===== verification/Script.v ===== *)
(** * The script as the page runs it, with its host failures

    Both files are classic scripts whose top level runs once when the page
    loads (game.js and oneplayer.js, the same lines in both):
<<
    const canvas = document.getElementById('pongCanvas');   // line 2
    const ctx = canvas.getContext('2d');                    // line 3
    let leftPaddleY = canvas.height / 2 - paddleHeight / 2; // lines 5-27
    ...
    window.addEventListener('keydown', ...);                // line 133 (156)
    gameLoop();                                             // line 161 (176)
>>
    The host primitives the script relies on can fail, and the script
    does not check them: [getElementById] returns [null] when the page has
    no [pongCanvas] element, and [getContext('2d')] returns [null] when no
    2D context can be made. A [TypeError] then ends the statement that
    reads the null value. This file models those paths.

    [js] is a state-and-exception monad over the page ([session]): an
    exception ends the running handler but keeps every write the handler
    made before it, as JavaScript does, and is reported on the console;
    the event loop goes on with the next event. The class [CtxCalls] says
    which outputs of a game are calls on the 2D context (every [cmd] of
    game.js; the [Paint] effects of oneplayer.js). [gameLoopJ] is
    [gameLoop] in the monad: the frame's assignments (they all come before
    the first context call in both files), the calls it issues in order,
    then [requestAnimationFrame]; a context call on a null context throws
    before [requestAnimationFrame] is reached.

    The theorem: without a [pongCanvas] element the script stops at line
    3 and nothing ever runs; with a null context the
    first [gameLoop] runs [update] and throws in [draw], so the loop is
    never scheduled, nothing is drawn, and only the key listener keeps
    changing the state. *)

From Stdlib Require Import ZArith Lia String List.
From stdpp Require Import base decidable numbers strings.
From S2P Require Import Prelude Canvas ScoreSpec TwoPlayer OnePlayer Loop.
Import ListNotations ScoreSpec Loop.
Open Scope Z_scope.

(** Which outputs of a game are calls on the 2D context [ctx]. *)
Class CtxCalls (Out : Type) := ctx_call : Out -> bool.

(** game.js issues nothing but context calls. *)
#[global] Instance cmd_ctx_calls : CtxCalls cmd := fun _ => true.

(** oneplayer.js also writes [canvas.style.backgroundColor] and calls
    [setTimeout], which do not use [ctx]. *)
#[global] Instance effect_ctx_calls : CtxCalls OnePlayer.effect := fun e =>
  match e with
  | OnePlayer.Paint _ => true
  | _ => false
  end.

Module Script.

(** The exceptions the script can raise. *)
Inductive jsError := TypeError (message : string).

#[global] Instance jsError_eq_dec : EqDecision jsError.
Proof. solve_decision. Defined.

Inductive outcome (A : Type) := Ret (a : A) | Exc (e : jsError).
Arguments Ret {A} a.
Arguments Exc {A} e.

(** ** A state-and-exception monad *)

Definition js (W A : Type) : Type := W -> outcome A * W.

Definition ret {W A} (a : A) : js W A := fun w => (Ret a, w).

Definition bind {W A B} (m : js W A) (k : A -> js W B) : js W B := fun w =>
  match m w with
  | (Ret a, w') => k a w'
  | (Exc e, w') => (Exc e, w')
  end.

Definition throw {W A} (e : jsError) : js W A := fun w => (Exc e, w).

Declare Scope js_scope.
Delimit Scope js_scope with js.
Notation "'do' x <- m ; k" := (bind m (fun x => k))
  (at level 10, x name, m at level 100, k at level 200) : js_scope.
Notation "m ;; k" := (bind m (fun _ => k))
  (at level 100, right associativity) : js_scope.
Local Open Scope js_scope.

(** The messages the browser gives the two [TypeError]s. *)
Definition nullCanvas : jsError :=
  TypeError "Cannot read properties of null (reading 'getContext')".
Definition nullContext : jsError :=
  TypeError "Cannot read properties of null (reading 'clearRect')".

(** What [document.getElementById('pongCanvas')] finds: nothing, or the
    canvas, whose [getContext('2d')] may return [null]. *)
Inductive lookup := NoElement | CanvasElement (has2d : bool).

Section Session.
Context {G Out : Type} `{GameLoop G Out} `{!CtxCalls Out}.
Variable c : HTMLCanvas.

Record session := mkSession {
  pg : page G Out;
  listening : bool;       (** the [keydown] listener is registered *)
  ctxLive : bool;         (** [ctx] is a 2D context, not [null] *)
  console : list jsError  (** uncaught exceptions, in order *)
}.

Definition setPage (p : page G Out) (w : session) : session :=
  mkSession p (listening w) (ctxLive w) (console w).

Definition getGame : js session G := fun w => (Ret (game (pg w)), w).

Definition setGame (s : G) : js session unit := fun w =>
  (Ret tt, setPage (mkPage s (output (pg w)) (callbacks (pg w))) w).

(** One output, in program order: a context call on a null [ctx] throws. *)
Definition issue1 (o : Out) : js session unit := fun w =>
  if ctx_call o && negb (ctxLive w) then (Exc nullContext, w)
  else (Ret tt, setPage (mkPage (game (pg w)) (output (pg w) ++ [o]) (callbacks (pg w))) w).

Fixpoint issue (os : list Out) : js session unit :=
  match os with
  | [] => ret tt
  | o :: rest => issue1 o ;; issue rest
  end.

Definition requestAnimationFrame : js session unit := fun w =>
  (Ret tt, setPage (mkPage (game (pg w)) (output (pg w)) (S (callbacks (pg w)))) w).

(** [function gameLoop() { update(); draw(); requestAnimationFrame(gameLoop); }] *)
Definition gameLoopJ : js session unit :=
  do g <- getGame;
  let '(s, os) := gl_body c g in
  setGame s ;; issue os ;; requestAnimationFrame.

(** A handler run by the event loop: an uncaught exception ends it and
    is reported; what it wrote before stays. *)
Definition dispatchJ (m : js session unit) (w : session) : session :=
  match m w with
  | (Ret _, w') => w'
  | (Exc e, w') => mkSession (pg w') (listening w') (ctxLive w') (console w' ++ [e])
  end.

Definition addListener : js session unit := fun w =>
  (Ret tt, mkSession (pg w) true (ctxLive w) (console w)).

Fixpoint runCallbacksJ (n : nat) (w : session) : session :=
  match n with
  | O => w
  | S n => runCallbacksJ n (dispatchJ gameLoopJ w)
  end.

Definition refreshJ (w : session) : session :=
  runCallbacksJ (callbacks (pg w))
    (setPage (mkPage (game (pg w)) (output (pg w)) 0) w).

Definition keydownJ (k : string) (w : session) : session :=
  if listening w
  then setPage (mkPage (pg_key c k (game (pg w))) (output (pg w)) (callbacks (pg w))) w
  else w.

(** The page after the script: stopped at line 3, or running. *)
Inductive pageState := Aborted (e : jsError) | Running (w : session).

(** Lines 2-3 throw when there is no element; otherwise the variables
    are initialised (lines 5-27), the listener is registered and the
    first [gameLoop()] runs, as one task of the event loop. *)
Definition loadScript (doc : lookup) : pageState :=
  match doc with
  | NoElement => Aborted nullCanvas
  | CanvasElement has2d =>
      Running (dispatchJ (addListener ;; gameLoopJ)
                 (mkSession (mkPage (pg_init c) [] 0) false has2d []))
  end.

Definition sessionStep (ev : bevent) (ps : pageState) : pageState :=
  match ps with
  | Aborted e => Aborted e
  | Running w => Running (match ev with
                          | Refresh => refreshJ w
                          | Key k => keydownJ k w
                          end)
  end.

Fixpoint sessionRun (evs : list bevent) (ps : pageState) : pageState :=
  match evs with
  | [] => ps
  | ev :: rest => sessionRun rest (sessionStep ev ps)
  end.

(** The key events among the browser's events. *)
Fixpoint keyEvents (evs : list bevent) : list event :=
  match evs with
  | [] => []
  | Refresh :: rest => keyEvents rest
  | Key k :: rest => KeyDown k :: keyEvents rest
  end.

End Session.

Arguments session G Out : clear implicits.
Arguments pageState G Out : clear implicits.

(** ** The page with a null context *)

Section Dead.
Context {G Out : Type} `{GameLoop G Out} `{!CtxCalls Out}.
Variable c : HTMLCanvas.

(** [addEventListener] registers the listener and throws nothing. *)
Lemma dispatch_addListener (m : js (session G Out) unit) w :
  dispatchJ (addListener ;; m) w = dispatchJ m (mkSession (pg w) true (ctxLive w) (console w)).
Proof. reflexivity. Qed.

(** A frame whose first output is a context call throws there: its
    assignments stay, nothing is drawn, the loop is not rescheduled. *)
Lemma dispatch_gameLoop_null (w : session G Out) o os :
  ctxLive w = false -> snd (gl_body c (game (pg w))) = o :: os -> ctx_call o = true ->
  dispatchJ (gameLoopJ c) w =
  mkSession (mkPage (pg_frame c (game (pg w))) (output (pg w)) (callbacks (pg w)))
    (listening w) false (console w ++ [nullContext]).
Proof.
  destruct w as [[g out k] l x e]. cbn [pg game ctxLive] in *. intros -> Hos Ho.
  rewrite <- gl_body_frame. unfold dispatchJ, gameLoopJ, bind, getGame.
  destruct (gl_body c g) as [s os'] eqn:E. cbn [snd fst] in *. subst os'.
  cbn. rewrite E. cbv [bind issue issue1 ctx_call setGame setPage requestAnimationFrame]. cbv [ctx_call] in Ho. now rewrite Ho.
Qed.

(** With no callback registered, refreshes do nothing and keys run the
    listener: the state follows the key events alone. *)
Lemma sessionRun_dead evs (w : session G Out) :
  callbacks (pg w) = 0%nat -> listening w = true ->
  sessionRun c evs (Running w) =
  Running (setPage (mkPage (run c (keyEvents evs) (game (pg w))) (output (pg w)) 0) w).
Proof.
  revert w; induction evs as [|[|k] evs IH]; intros w Hc Hk; cbn [sessionRun keyEvents run].
  - rewrite <- Hc. now destruct w as [[g o n] l x e].
  - cbn [sessionStep]. unfold refreshJ. rewrite Hc. cbn [runCallbacksJ].
    rewrite IH by (cbn; assumption || reflexivity). reflexivity.
  - cbn [sessionStep]. unfold keydownJ. rewrite Hk, IH by (cbn; assumption).
    reflexivity.
Qed.
End Dead.

(** game.js draws every frame, starting with [clearCanvas]. *)
Lemma twoPlayer_first_call c (s : TwoPlayer.state) :
  snd (gl_body c s) = ClearRect 0 0 (width c) (height c) :: tl (snd (gl_body c s)).
Proof. reflexivity. Qed.

(** ** Properties of the script *)

(** C35: the host failures of game.js: without a [pongCanvas] element,
    [canvas.getContext] throws at line 3, the script stops before the
    listener and the loop exist, and no later event changes anything;
    when [getContext('2d')] returns [null], the first [gameLoop] runs
    [update] and throws at the first call of [draw], so
    [requestAnimationFrame] is never reached, nothing is ever drawn,
    refreshes do nothing, one [TypeError] is reported, and the state
    changes only by the key listener, registered before. *)
Theorem host_failures c evs :
  sessionRun c evs (loadScript c NoElement : pageState TwoPlayer.state cmd) = Aborted nullCanvas /\
  sessionRun c evs (loadScript c (CanvasElement false)) =
  Running (mkSession
    (mkPage (run c (keyEvents evs) (TwoPlayer.update c (TwoPlayer.init c))) [] 0
       : page TwoPlayer.state cmd)
    true false [nullContext]).
Proof.
  split; [induction evs as [|ev evs IH]; [reflexivity | exact IH]|].
  unfold loadScript. rewrite dispatch_addListener.
  erewrite dispatch_gameLoop_null; [| reflexivity | apply twoPlayer_first_call | reflexivity].
  now rewrite sessionRun_dead.
Qed.

End Script.
